(** * fcitx-utils event loop, libuv backend (event_libuv.cpp)

    A shallow embedding of the libuv backed [EventLoop]: the flag
    conversions, the enable-state machine shared by the IO and timer
    sources with its teardown-then-rebuild reconciliation, the three
    dispatch paths ([IOEventCallback], [TimeEventCallback] and the exit walk
    of [EventLoop::exec]) and the factory methods. *)

From Stdlib Require Import ZArith List Lia Bool.
From stdpp Require Import base option list gmap strings.

Open Scope Z_scope.

(** ** Flag constants

    [IOEventFlag] (event.h) and [uv_poll_event] (uv.h) are declared in
    headers that event_libuv.cpp only includes.  Both are single-bit
    enumerations; the embedding takes the bit positions as an interface and
    requires only that the positions inside one enumeration differ. *)

Class FlagBits := {
  In_bit : N;
  Out_bit : N;
  Err_bit : N;
  Hup_bit : N;
  READABLE_bit : N;
  WRITABLE_bit : N;
  DISCONNECT_bit : N;
  IOEventFlag_distinct : NoDup [In_bit; Out_bit; Err_bit; Hup_bit];
  uv_poll_event_distinct : NoDup [READABLE_bit; WRITABLE_bit; DISCONNECT_bit]
}.

Definition flag_of_bit (b : N) : Z := Z.shiftl 1 (Z.of_N b).

Module IOEventFlag.
Section Flags.
Context {FB : FlagBits}.
Definition In : Z := flag_of_bit In_bit.
Definition Out : Z := flag_of_bit Out_bit.
Definition Err : Z := flag_of_bit Err_bit.
Definition Hup : Z := flag_of_bit Hup_bit.
End Flags.
End IOEventFlag.

Section UVFlags.
Context {FB : FlagBits}.
Definition UV_READABLE : Z := flag_of_bit READABLE_bit.
Definition UV_WRITABLE : Z := flag_of_bit WRITABLE_bit.
Definition UV_DISCONNECT : Z := flag_of_bit DISCONNECT_bit.
End UVFlags.

(** The values the two headers give: In = 1 << 0, Out = 1 << 1,
    Err = 1 << 2, Hup = 1 << 3; UV_READABLE = 1, UV_WRITABLE = 2,
    UV_DISCONNECT = 4. *)
Definition header_bits : FlagBits := {|
  In_bit := 0; Out_bit := 1; Err_bit := 2; Hup_bit := 3;
  READABLE_bit := 0; WRITABLE_bit := 1; DISCONNECT_bit := 2;
  IOEventFlag_distinct := bool_decide_unpack (NoDup [0; 1; 2; 3]%N) I;
  uv_poll_event_distinct := bool_decide_unpack (NoDup [0; 1; 2]%N) I
|}.

(** A C++ integer or [Flags] value used as a condition. *)
Definition truthy (x : Z) : bool := negb (x =? 0).

(** [IOEventFlags()], the empty flag set. *)
Definition IOEventFlags_empty : Z := 0.

Section FlagConversion.
Context {FB : FlagBits}.

Definition IOEventFlagsToLibUVFlags (flags : Z) : Z :=
  let result := 0 in
  let result :=
    if truthy (Z.land flags IOEventFlag.In)
    then Z.lor result UV_READABLE else result in
  let result :=
    if truthy (Z.land flags IOEventFlag.Out)
    then Z.lor result UV_WRITABLE else result in
  let result :=
    if truthy (Z.land flags IOEventFlag.Hup)
    then Z.lor result UV_DISCONNECT else result in
  result.

Definition LibUVFlagsToIOEventFlags (flags : Z) : Z :=
  Z.lor
    (Z.lor
       (if truthy (Z.land flags UV_READABLE)
        then IOEventFlag.In else IOEventFlags_empty)
       (if truthy (Z.land flags UV_WRITABLE)
        then IOEventFlag.Out else IOEventFlags_empty))
    (if truthy (Z.land flags UV_DISCONNECT)
     then IOEventFlag.Hup else IOEventFlags_empty).

(** The flag sets drawn from In, Out and Hup. *)
Definition requestable_mask : Z :=
  Z.lor (Z.lor IOEventFlag.In IOEventFlag.Out) IOEventFlag.Hup.
End FlagConversion.


(** ** Scalars *)

(** Addresses: of source objects ([this], [TrackableObjectReference]) and of
    the [calloc]ed native handles. *)
Definition ptr := nat.

Definition clockid_t := Z.

(** <time.h>, Linux. *)
Definition CLOCK_MONOTONIC : clockid_t := 1.

(** [uint64_t] arithmetic. *)
Definition wrap64 (x : Z) : Z := x mod 2 ^ 64.
Definition is_uint64 (x : Z) : Prop := 0 <= x < 2 ^ 64.

Inductive LibUVSourceEnableState := Disabled | Oneshot | Enabled.

Global Instance LibUVSourceEnableState_eq_dec :
  EqDecision LibUVSourceEnableState.
Proof. solve_decision. Defined.

(** ** Caller-supplied callbacks

    A callback is user code.  It reads the sources it can reach through
    their getters ([View]) and acts on them through the public interface:
    a list of method calls, destruction included, followed by a return or
    by a throw.  The dispatchers ignore the [bool] a callback returns. *)

Inductive SourceView :=
| IOView (state : LibUVSourceEnableState) (fd events revents : Z)
| TimeView (state : LibUVSourceEnableState) (time accuracy : Z)
  (clock : clockid_t)
| ExitView (state : LibUVSourceEnableState).

Record View := {
  sources : gmap ptr SourceView;
  (** what a closure with mutable captures can count *)
  earlier_invocations : nat
}.

Inductive Method :=
| setEnabled (enabled : bool)
| setOneShot
| setFd (fd : Z)
| setEvents (flags : Z)
| setTime (time : Z)
| setAccuracy (time : Z)
| setClock (clockid : clockid_t)
| destroy.

Definition Call : Type := ptr * Method.

Inductive Outcome :=
| Returns (result : bool)
| ThrowsStdException   (* an exception derived from std::exception *)
| ThrowsOther.         (* any other thrown object *)

Definition Reaction : Type := list Call * Outcome.

(** A [std::function] taking the [EventSourceIO] pointer, [int fd] and the
    [IOEventFlags] and returning [bool]. *)
Definition IOCallback := View → ptr → Z → Z → Reaction.
(** A [std::function] taking the [EventSourceTime] pointer and
    [uint64_t usec]. *)
Definition TimeCallback := View → ptr → Z → Reaction.
(** A [std::function] taking the [EventSource] pointer. *)
Definition EventCallback := View → ptr → Reaction.

(** ** The libuv side *)

(** What [setup] asks of libuv for a handle:
    [uv_poll_init(loop, poll, fd); uv_poll_start(poll, events, &IOEventCallback)]
    or
    [uv_timer_init(loop, timer); uv_timer_start(timer, &TimeEventCallback, timeout, repeat)]. *)
Inductive uv_registration :=
| uv_poll (fd events : Z)
| uv_timer (timeout repeat : Z).

Record uv_handle_t := {
  data : option ptr;          (* back reference to the owning source *)
  closing : bool;             (* uv_close was requested *)
  registration : uv_registration
}.

Record UVLoop := { handles : gmap ptr uv_handle_t }.

(** The loop a source's [weak_ptr<UVLoop>] refers to ([None] once the
    [UVLoop] is gone) and the clock behind [now(clockid)]: the [n]-th query
    is answered by [now_answers n]. *)
Record Sys := {
  uvloop : option UVLoop;
  now_answers : nat → clockid_t → Z;
  now_calls : nat
}.

Definition set_uvloop (l : option UVLoop) (s : Sys) : Sys :=
  {| uvloop := l; now_answers := now_answers s; now_calls := now_calls s |}.

Definition now (clockid : clockid_t) (s : Sys) : Z * Sys :=
  (wrap64 (now_answers s (now_calls s) clockid),
   {| uvloop := uvloop s; now_answers := now_answers s;
      now_calls := S (now_calls s) |}).

(** [handle->data = nullptr; uv_close(handle, free)] *)
Definition uv_detach_close (h : ptr) (l : UVLoop) : UVLoop :=
  {| handles :=
       alter (λ hd, {| data := None; closing := true;
                       registration := registration hd |}) h (handles l) |}.

(** [calloc]: an address no handle of the loop occupies. *)
Definition calloc (l : UVLoop) : ptr := fresh (dom (handles l)).

(** ** LibUVSourceBase and LibUVSource<Interface, HandleType> *)

Record LibUVSourceBase := {
  handle_ : option ptr;
  state_ : LibUVSourceEnableState
}.

(** The derived classes: each holds the base sub-object and overrides
    [setup]. *)
Class LibUVSource (T : Type) := {
  base : T → LibUVSourceBase;
  set_base : LibUVSourceBase → T → T;
  setup : T → Sys → uv_registration * Sys
}.

Class LibUVSourceLaws (T : Type) `{LibUVSource T} := {
  base_set_base : ∀ b t, base (set_base b t) = b;
  set_base_base : ∀ t, set_base (base t) t = t;
  set_base_set_base : ∀ b b' t, set_base b (set_base b' t) = set_base b t;
  setup_set_base : ∀ b t s, setup (set_base b t) s = setup t s;
  setup_keeps_uvloop : ∀ t s, uvloop (setup t s).2 = uvloop s;
  setup_set_uvloop : ∀ l t s, (setup t (set_uvloop l s)).1 = (setup t s).1
}.

Section LibUVSource.
Context {T : Type} `{LibUVSource T}.

Definition set_handle_ (h : option ptr) (t : T) : T :=
  set_base {| handle_ := h; state_ := state_ (base t) |} t.

Definition set_state_ (st : LibUVSourceEnableState) (t : T) : T :=
  set_base {| handle_ := handle_ (base t); state_ := st |} t.

Definition cleanup (t : T) (s : Sys) : T * Sys :=
  match handle_ (base t) with
  | None => (t, s)
  | Some handle =>
      (set_handle_ None t,
       set_uvloop (uv_detach_close handle <$> uvloop s) s)
  end.

(** [LibUVSource::init]: allocate the handle, point it back at the source
    and let [setup] register it. *)
Definition init (this : ptr) (loop : UVLoop) (t : T) (s : Sys) : T * Sys :=
  let handle := calloc loop in
  let t := set_handle_ (Some handle) t in
  let '(reg, s) := setup t s in
  (t,
   set_uvloop
     (Some {| handles :=
                <[handle := {| data := Some this; closing := false;
                               registration := reg |}]> (handles loop) |})
     s).

Definition resetEvent (this : ptr) (t : T) (s : Sys) : T * Sys :=
  let '(t, s) := cleanup t s in
  if decide (state_ (base t) = Disabled) then (t, s)
  else
    match uvloop s with           (* loop_.lock() *)
    | None => (t, s)
    | Some loop => init this loop t s
    end.

Definition setState (this : ptr) (state : LibUVSourceEnableState)
    (t : T) (s : Sys) : T * Sys :=
  if decide (state_ (base t) ≠ state)
  then resetEvent this (set_state_ state t) s
  else (t, s).

Definition isEnabled (t : T) : bool :=
  bool_decide (state_ (base t) ≠ Disabled).

Definition LibUVSource_setEnabled (this : ptr) (enabled : bool)
    (t : T) (s : Sys) : T * Sys :=
  let newState := if enabled then Enabled else Disabled in
  setState this newState t s.

Definition LibUVSource_setOneShot (this : ptr) (t : T) (s : Sys) : T * Sys :=
  setState this Oneshot t s.

Definition isOneShot (t : T) : bool :=
  bool_decide (state_ (base t) = Oneshot).
End LibUVSource.

(** ** LibUVSourceIO *)

Module LibUVSourceIO.
Section WithFlags.
Context {FB : FlagBits}.

Record t := {
    base_ : LibUVSourceBase;
    fd_ : Z;
    flags_ : Z;
    revents_ : Z;
    callback_ : IOCallback
  }.

Definition with_base (b : LibUVSourceBase) (o : t) : t :=
  {| base_ := b; fd_ := fd_ o; flags_ := flags_ o;
     revents_ := revents_ o; callback_ := callback_ o |}.
Definition with_fd (fd : Z) (o : t) : t :=
  {| base_ := base_ o; fd_ := fd; flags_ := flags_ o;
     revents_ := revents_ o; callback_ := callback_ o |}.
Definition with_flags (flags : Z) (o : t) : t :=
  {| base_ := base_ o; fd_ := fd_ o; flags_ := flags;
     revents_ := revents_ o; callback_ := callback_ o |}.

Definition setup (o : t) (s : Sys) : uv_registration * Sys :=
  let flags := IOEventFlagsToLibUVFlags (flags_ o) in
  (uv_poll (fd_ o) flags, s).

Global Instance source : LibUVSource t :=
  Build_LibUVSource t base_ with_base setup.

(** The constructor: [revents_] is default-constructed (empty),
    then [setEnabled(true)]. *)
Definition new (this : ptr) (_callback : IOCallback) (fd flags : Z)
    (s : Sys) : t * Sys :=
  LibUVSource_setEnabled this true
    {| base_ := {| handle_ := None; state_ := Disabled |};
       fd_ := fd; flags_ := flags; revents_ := IOEventFlags_empty;
       callback_ := _callback |} s.

Definition fd (o : t) : Z := fd_ o.

Definition setFd (this : ptr) (fd : Z) (o : t) (s : Sys) : t * Sys :=
  if decide (fd_ o ≠ fd) then resetEvent this (with_fd fd o) s
  else (o, s).

Definition events (o : t) : Z := flags_ o.

Definition setEvents (this : ptr) (flags : Z) (o : t) (s : Sys)
    : t * Sys :=
  if decide (flags_ o ≠ flags) then resetEvent this (with_flags flags o) s
  else (o, s).

Definition revents (o : t) : Z := revents_ o.
End WithFlags.
End LibUVSourceIO.

(** ** LibUVSourceTime *)

Module LibUVSourceTime.
Record t := {
    base_ : LibUVSourceBase;
    time_ : Z;
    clock_ : clockid_t;
    accuracy_ : Z;
    callback_ : TimeCallback
  }.

Definition with_base (b : LibUVSourceBase) (o : t) : t :=
  {| base_ := b; time_ := time_ o; clock_ := clock_ o;
     accuracy_ := accuracy_ o; callback_ := callback_ o |}.
Definition with_time (time : Z) (o : t) : t :=
  {| base_ := base_ o; time_ := time; clock_ := clock_ o;
     accuracy_ := accuracy_ o; callback_ := callback_ o |}.
Definition with_clock (clockid : clockid_t) (o : t) : t :=
  {| base_ := base_ o; time_ := time_ o; clock_ := clockid;
     accuracy_ := accuracy_ o; callback_ := callback_ o |}.
Definition with_accuracy (accuracy : Z) (o : t) : t :=
  {| base_ := base_ o; time_ := time_ o; clock_ := clock_ o;
     accuracy_ := accuracy; callback_ := callback_ o |}.

Definition setup (o : t) (s : Sys) : uv_registration * Sys :=
  let '(curr, s) := now (clock_ o) s in
  let timeout := if curr <? time_ o then wrap64 (time_ o - curr) else 0 in
  (* libuv is milliseconds *)
  let timeout := timeout / 1000 in
  (uv_timer timeout 0, s).

Global Instance source : LibUVSource t :=
  Build_LibUVSource t base_ with_base setup.

(** The constructor ends with [setOneShot()]. *)
Definition new (this : ptr) (_callback : TimeCallback) (time : Z)
    (clockid : clockid_t) (accuracy : Z) (s : Sys) : t * Sys :=
  LibUVSource_setOneShot this
    {| base_ := {| handle_ := None; state_ := Disabled |};
       time_ := time; clock_ := clockid; accuracy_ := accuracy;
       callback_ := _callback |} s.

Definition time (o : t) : Z := time_ o.

Definition setTime (this : ptr) (time : Z) (o : t) (s : Sys) : t * Sys :=
  resetEvent this (with_time time o) s.

Definition accuracy (o : t) : Z := accuracy_ o.

Definition setAccuracy (time : Z) (o : t) : t := with_accuracy time o.

Definition setClock (this : ptr) (clockid : clockid_t) (o : t) (s : Sys)
    : t * Sys :=
  resetEvent this (with_clock clockid o) s.

Definition clock (o : t) : clockid_t := clock_ o.
End LibUVSourceTime.

(** ** LibUVSourceExit: no base class, no native handle *)

Module LibUVSourceExit.
Record t := {
    state_ : LibUVSourceEnableState;
    callback_ : EventCallback
  }.

Definition new (_callback : EventCallback) : t :=
  {| state_ := Oneshot; callback_ := _callback |}.

Definition isOneShot (o : t) : bool := bool_decide (state_ o = Oneshot).
Definition isEnabled (o : t) : bool := bool_decide (state_ o ≠ Disabled).
Definition setEnabled (enabled : bool) (o : t) : t :=
  {| state_ := if enabled then Enabled else Disabled;
     callback_ := callback_ o |}.
Definition setOneShot (o : t) : t :=
  {| state_ := Oneshot; callback_ := callback_ o |}.
End LibUVSourceExit.

(** ** The heap of sources and the EventLoop *)

Inductive Object :=
| IOSource (o : LibUVSourceIO.t)
| TimeSource (o : LibUVSourceTime.t)
| ExitSource (o : LibUVSourceExit.t).

(** The arguments a dispatcher hands to a callback. *)
Inductive Args :=
| IOArgs (source : ptr) (fd flags : Z)
| TimeArgs (source : ptr) (usec : Z)
| EventArgs (source : ptr).

(** One callback invocation: its arguments and what the sources looked like
    when it was entered. *)
Record Invocation := { inv_args : Args; inv_view : View }.

(** [EventLoopPrivate] ([uvloop (sys w)] is its [loop_], [exitEvents_] its
    vector of weak references), the sources alive on the heap, and the
    callback invocations so far, oldest first.  Addresses are handed out
    from [next_ptr] and never reused, so an address serves as the
    [TrackableObjectReference] of the object that was created there. *)
Record World := {
  sys : Sys;
  heap : gmap ptr Object;
  next_ptr : ptr;
  exitEvents_ : list ptr;
  log : list Invocation
}.

Definition set_sys (s : Sys) (w : World) : World :=
  {| sys := s; heap := heap w; next_ptr := next_ptr w;
     exitEvents_ := exitEvents_ w; log := log w |}.
Definition set_heap (h : gmap ptr Object) (w : World) : World :=
  {| sys := sys w; heap := h; next_ptr := next_ptr w;
     exitEvents_ := exitEvents_ w; log := log w |}.
Definition set_exitEvents_ (l : list ptr) (w : World) : World :=
  {| sys := sys w; heap := heap w; next_ptr := next_ptr w;
     exitEvents_ := l; log := log w |}.
Definition set_log (l : list Invocation) (w : World) : World :=
  {| sys := sys w; heap := heap w; next_ptr := next_ptr w;
     exitEvents_ := exitEvents_ w; log := l |}.

(** How a dispatcher can end. *)
Inductive Termination :=
| std_abort          (* abort() *)
| fatal_log_abort.   (* FCITX_FATAL() *)

(** Modelled from the spec: the [FCITX_FATAL()] logging macro of log.h, which
    is not part of the translation unit; section 7 of the specification
    calls what follows a callback failure on the IO path a "fatal-logged
    abort", so a statement logged through it ends the process. *)
Definition FCITX_FATAL : Termination := fatal_log_abort.

Inductive Result (A : Type) :=
| Normal (a : A) (w : World)               (* the function returned [a] *)
| Terminated (how : Termination) (w : World)  (* the process was ended *)
| Unwinding (w : World)       (* an exception leaves the function uncaught *)
| Undefined.                  (* a null or dangling source was dereferenced *)
Arguments Normal {A} a w.
Arguments Terminated {A} how w.
Arguments Unwinding {A} w.
Arguments Undefined {A}.

Section EventLoop.
Context {FB : FlagBits}.

(** What the getters of a source return. *)
Definition observe (o : Object) : SourceView :=
  match o with
  | IOSource o =>
      IOView (state_ (base o)) (LibUVSourceIO.fd o) (LibUVSourceIO.events o)
        (LibUVSourceIO.revents o)
  | TimeSource o =>
      TimeView (state_ (base o)) (LibUVSourceTime.time o)
        (LibUVSourceTime.accuracy o) (LibUVSourceTime.clock o)
  | ExitSource o => ExitView (LibUVSourceExit.state_ o)
  end.

Definition view (w : World) : View :=
  {| sources := observe <$> heap w;
     earlier_invocations := length (log w) |}.

(** One method call on the object at [this]: the object afterwards
    ([None] once destroyed; the base class destructor runs [cleanup]).
    A method that is no member of the object's class cannot be called
    and leaves it alone. *)
Definition method (this : ptr) (m : Method) (o : Object) (s : Sys)
    : option Object * Sys :=
  match o, m with
  | IOSource o, setEnabled enabled =>
      let '(o, s) := LibUVSource_setEnabled this enabled o s in
      (Some (IOSource o), s)
  | IOSource o, setOneShot =>
      let '(o, s) := LibUVSource_setOneShot this o s in
      (Some (IOSource o), s)
  | IOSource o, setFd fd =>
      let '(o, s) := LibUVSourceIO.setFd this fd o s in
      (Some (IOSource o), s)
  | IOSource o, setEvents flags =>
      let '(o, s) := LibUVSourceIO.setEvents this flags o s in
      (Some (IOSource o), s)
  | IOSource o, destroy => let '(_, s) := cleanup o s in (None, s)
  | TimeSource o, setEnabled enabled =>
      let '(o, s) := LibUVSource_setEnabled this enabled o s in
      (Some (TimeSource o), s)
  | TimeSource o, setOneShot =>
      let '(o, s) := LibUVSource_setOneShot this o s in
      (Some (TimeSource o), s)
  | TimeSource o, setTime time =>
      let '(o, s) := LibUVSourceTime.setTime this time o s in
      (Some (TimeSource o), s)
  | TimeSource o, setAccuracy time =>
      (Some (TimeSource (LibUVSourceTime.setAccuracy time o)), s)
  | TimeSource o, setClock clockid =>
      let '(o, s) := LibUVSourceTime.setClock this clockid o s in
      (Some (TimeSource o), s)
  | TimeSource o, destroy => let '(_, s) := cleanup o s in (None, s)
  | ExitSource o, setEnabled enabled =>
      (Some (ExitSource (LibUVSourceExit.setEnabled enabled o)), s)
  | ExitSource o, setOneShot =>
      (Some (ExitSource (LibUVSourceExit.setOneShot o)), s)
  | ExitSource o, destroy => (None, s)
  | _, _ => (Some o, s)
  end.

(** [this->m(...)] in world [w].  A call through a pointer to a destroyed
    object is undefined in the source; here it does nothing. *)
Definition call (c : Call) (w : World) : World :=
  let '(this, m) := c in
  match heap w !! this with
  | None => w
  | Some o =>
      let '(o', s) := method this m o (sys w) in
      set_heap
        (match o' with
         | Some o' => <[this := o']> (heap w)
         | None => delete this (heap w)
         end)
        (set_sys s w)
  end.

Definition run_calls (calls : list Call) (w : World) : World :=
  foldl (λ w c, call c w) w calls.

(** Invoke a callback: it is entered (logged with what it sees), performs
    its calls, and returns or throws. *)
Definition invoke (args : Args) (callback : View → Reaction) (w : World)
    : World * Outcome :=
  let v := view w in
  let '(calls, outcome) := callback v in
  (run_calls calls (set_log (log w ++ [{| inv_args := args; inv_view := v |}]) w),
   outcome).

(** [handle->data] of a handle of the loop. *)
Definition handle_data (handle : ptr) (w : World) : option ptr :=
  l ← uvloop (sys w); hd ← handles l !! handle; data hd.

(** [o] is the source as the dispatcher finds it; [setEnabled(false)] leaves
    [fd_] and [callback_] alone, so the later [source->fd()] and
    [source->callback_] read what [o] holds. *)
Definition IOEventCallback (handle : ptr) (status events : Z) (w : World)
    : Result () :=
  match handle_data handle w with
  | Some source =>
      match heap w !! source with
      | Some (IOSource o) =>
          (* try *)
          let w :=
            if isOneShot o then call (source, setEnabled false) w else w in
          let flags := LibUVFlagsToIOEventFlags events in
          let flags :=
            if status <? 0 then Z.lor flags IOEventFlag.Err else flags in
          match
            invoke (IOArgs source (LibUVSourceIO.fd o) flags)
              (λ v, LibUVSourceIO.callback_ o v source
                      (LibUVSourceIO.fd o) flags) w
          with
          | (w, Returns _) => Normal () w
          | (w, ThrowsStdException) =>
              (* catch (const std::exception &e) *)
              Terminated FCITX_FATAL w
          | (w, ThrowsOther) => Unwinding w
          end
      | _ => Undefined
      end
  | None => Undefined
  end.

Definition addIOEvent (fd flags : Z) (callback : IOCallback) (w : World)
    : ptr * World :=
  let source := next_ptr w in
  let '(o, s) := LibUVSourceIO.new source callback fd flags (sys w) in
  (source,
   {| sys := s; heap := <[source := IOSource o]> (heap w);
      next_ptr := S source; exitEvents_ := exitEvents_ w; log := log w |}).

(** [sourceRef.isValid()] for a reference to the timer source at [ref],
    with the object it resolves to. *)
Definition get_time (ref : ptr) (w : World) : option LibUVSourceTime.t :=
  match heap w !! ref with
  | Some (TimeSource o) => Some o
  | _ => None
  end.

(** As in [IOEventCallback], [source->time()] and [source->callback_] after
    [setEnabled(false)] are those of [o]. *)
Definition TimeEventCallback (handle : ptr) (w : World) : Result () :=
  match handle_data handle w with
  | Some source =>
      match heap w !! source with
      | Some (TimeSource o) =>
          (* try *)
          let sourceRef := source in              (* source->watch() *)
          let w :=
            if isOneShot o then call (source, setEnabled false) w else w in
          match
            invoke (TimeArgs source (LibUVSourceTime.time o))
              (λ v, LibUVSourceTime.callback_ o v source
                      (LibUVSourceTime.time o)) w
          with
          | (w, Returns _) =>
              match get_time sourceRef w with
              | Some o =>
                  if isEnabled o then
                    let '(o, s) := resetEvent source o (sys w) in
                    Normal ()
                      (set_heap (<[source := TimeSource o]> (heap w))
                         (set_sys s w))
                  else Normal () w
              | None => Normal () w
              end
          | (w, ThrowsStdException) =>
              (* catch (const std::exception &e) *)
              Terminated std_abort w
          | (w, ThrowsOther) => Unwinding w
          end
      | _ => Undefined
      end
  | None => Undefined
  end.

Definition addTimeEvent (clock : clockid_t) (usec accuracy : Z)
    (callback : TimeCallback) (w : World) : ptr * World :=
  let source := next_ptr w in
  let '(o, s) :=
    LibUVSourceTime.new source callback usec clock accuracy (sys w) in
  (source,
   {| sys := s; heap := <[source := TimeSource o]> (heap w);
      next_ptr := S source; exitEvents_ := exitEvents_ w; log := log w |}).

Definition addExitEvent (callback : EventCallback) (w : World)
    : ptr * World :=
  let source := next_ptr w in
  (source,
   {| sys := sys w;
      heap := <[source := ExitSource (LibUVSourceExit.new callback)]> (heap w);
      next_ptr := S source;
      exitEvents_ := exitEvents_ w ++ [source];   (* push_back(watch()) *)
      log := log w |}).

(** The lambda [addDeferEvent] wraps the callback in. *)
Definition defer_wrap (callback : EventCallback) : TimeCallback :=
  λ v source _, callback v source.

Definition addDeferEvent (callback : EventCallback) (w : World)
    : ptr * World :=
  addTimeEvent CLOCK_MONOTONIC 0 0 (defer_wrap callback) w.

(** [iter->get()] and [iter->isValid()] for a reference to an exit
    source. *)
Definition get_exit (ref : ptr) (w : World) : option LibUVSourceExit.t :=
  match heap w !! ref with
  | Some (ExitSource o) => Some o
  | _ => None
  end.

Definition isValid_exit (ref : ptr) (w : World) : bool :=
  bool_decide (is_Some (get_exit ref w)).

(** The body of the [for] loop in [exec] up to the test of
    [iter->isValid()], for the entry [ref]. *)
Definition exec_visit (ref : ptr) (w : World) : Result () :=
  match get_exit ref w with
  | Some event =>
      if LibUVSourceExit.isEnabled event then
        (* try *)
        let w :=
          if LibUVSourceExit.isOneShot event
          then call (ref, setEnabled false) w else w in
        match
          invoke (EventArgs ref)
            (λ v, LibUVSourceExit.callback_ event v ref) w
        with
        | (w, Returns _) => Normal () w
        | (w, ThrowsStdException) =>
            (* catch (const std::exception &e): some abnormal things threw *)
            Terminated std_abort w
        | (w, ThrowsOther) => Unwinding w
        end
      else Normal () w
  | None => Normal () w
  end.

(** The [for] loop of [exec]: [iter] is the position of the iterator in
    [exitEvents_]; [erase] removes the entry under it, [++iter] moves on.
    [fuel] bounds the number of iterations; [None] when it runs out. *)
Fixpoint exec_loop (fuel : nat) (iter : nat) (w : World)
    : option (Result ()) :=
  match exitEvents_ w !! iter with
  | None => Some (Normal () w)           (* iter == end() *)
  | Some ref =>
      match fuel with
      | O => None
      | S fuel =>
          match exec_visit ref w with
          | Normal _ w =>
              if negb (isValid_exit ref w)
              then exec_loop fuel iter
                     (set_exitEvents_ (delete iter (exitEvents_ w)) w)
              else exec_loop fuel (S iter) w
          | r => Some r
          end
      end
  end.

(** [uv_run] is libuv's; [exec] is given what it does to the world and
    the status it returns.  One iteration per entry is enough fuel. *)
Definition exec (uv_run : World → Z * World) (w : World)
    : option (Result bool) :=
  let '(r, w) := uv_run w in
  match exec_loop (length (exitEvents_ w)) 0 w with
  | Some (Normal _ w) => Some (Normal (0 <=? r) w)
  | Some (Terminated how w) => Some (Terminated how w)
  | Some (Unwinding w) => Some (Unwinding w)
  | Some Undefined => Some Undefined
  | None => None
  end.
End EventLoop.

(** ** The reconciliation invariant *)

Section Registered.
Context {T : Type} `{LibUVSource T}.

(** The source at [this] and the loop agree: the loop is alive, and
    either the source is Disabled and has no handle, or it is not
    Disabled and its handle is an open handle of the loop that points back
    at it. *)
Definition handle_ok (this : ptr) (t : T) (s : Sys) : bool :=
  match uvloop s with
  | None => false
  | Some l =>
      match handle_ (base t) with
      | None => bool_decide (state_ (base t) = Disabled)
      | Some h =>
          bool_decide (state_ (base t) ≠ Disabled)
          && match handles l !! h with
             | Some hd => bool_decide (data hd = Some this) && negb (closing hd)
             | None => false
             end
      end
  end.
End Registered.


Section Reconcile.
Context {FB : FlagBits}.

Definition object_base (o : Object) : option LibUVSourceBase :=
  match o with
  | IOSource o => Some (base o)
  | TimeSource o => Some (base o)
  | ExitSource _ => None
  end.


(** The registration [setup] produces for the object as it is, with the
    clock as it stands in [s]. *)
Definition object_setup (o : Object) (s : Sys) : option uv_registration :=
  match o with
  | IOSource o => Some (setup o s).1
  | TimeSource o => Some (setup o s).1
  | ExitSource _ => None
  end.

Definition source_ok (this : ptr) (w : World) : bool :=
  match heap w !! this with
  | Some (IOSource o) => handle_ok this o (sys w)
  | Some (TimeSource o) => handle_ok this o (sys w)
  | _ => false
  end.

Definition is_setter (m : Method) : bool :=
  match m with destroy => false | _ => true end.

Definition handles_of (w : World) : gmap ptr uv_handle_t :=
  match uvloop (sys w) with Some l => handles l | None => ∅ end.


(** In [w'] the source at [this], unless Disabled, owns a handle that is
    new with respect to [w], open, pointing back at the source, and
    registered as [setup] does for the configuration in [w']. *)
Definition rebuilt (this : ptr) (w w' : World) : Prop :=
  ∀ o' b', heap w' !! this = Some o' → object_base o' = Some b' →
    state_ b' ≠ Disabled →
    ∃ h reg, handle_ b' = Some h ∧ handles_of w !! h = None ∧
      object_setup o' (sys w) = Some reg ∧
      handles_of w' !! h =
        Some {| data := Some this; closing := false; registration := reg |}.


End Reconcile.

(** The world a dispatcher leaves behind, however it ended. *)
Definition final_world {A} (r : Result A) : option World :=
  match r with
  | Normal _ w | Terminated _ w | Unwinding w => Some w
  | Undefined => None
  end.

(** ** The exit walk as the specification words it

    The entries are taken once each, in registration order; an entry is
    visited ([exec_visit]) and then kept iff its reference is still valid.
    [kept] are the entries already passed and kept, [rest] those still to
    come. *)

Section ExitWalk.
Context {FB : FlagBits}.

Fixpoint exit_walk (kept rest : list ptr) (w : World) : Result () :=
  match rest with
  | [] => Normal () w
  | ref :: rest =>
      match exec_visit ref w with
      | Normal _ w =>
          if isValid_exit ref w
          then exit_walk (kept ++ [ref]) rest w
          else exit_walk kept rest (set_exitEvents_ (kept ++ rest) w)
      | r => r
      end
  end.

(** What one visit does, in the terms of the specification: nothing for an
    entry that no longer resolves or is Disabled; otherwise one invocation
    of the callback with the source as its only argument, entered with the
    source Disabled if it was OneShot. *)
Definition visit_as_specified (ref : ptr) (w : World) : Prop :=
  match get_exit ref w with
  | Some event =>
      if LibUVSourceExit.isEnabled event then
        let entry :=
          if LibUVSourceExit.isOneShot event
          then call (ref, setEnabled false) w else w in
        ∃ w', final_world (exec_visit ref w) = Some w' ∧
          log w' = log w ++ [{| inv_args := EventArgs ref;
                                inv_view := view entry |}] ∧
          sources (view entry) !! ref =
            Some (ExitView (if LibUVSourceExit.isOneShot event
                            then Disabled else Enabled))
      else exec_visit ref w = Normal () w
  | None => exec_visit ref w = Normal () w
  end.

(** What the invocations of one walk that started in [w] over [entries]
    must look like. *)
Definition fired_as_specified (w : World) (entries : list ptr)
    (fired : list Invocation) : Prop :=
  sublist (inv_args <$> fired) (EventArgs <$> entries) ∧
  Forall (λ i, ∃ ref, inv_args i = EventArgs ref ∧
            is_Some (get_exit ref w) ∧
            (sources (inv_view i) !! ref = Some (ExitView Enabled) ∨
             sources (inv_view i) !! ref = Some (ExitView Disabled))) fired.
End ExitWalk.

(** The same ending, with [b] as the value if the function returned. *)
Definition returning {A B} (b : B) (r : Result A) : Result B :=
  match r with
  | Normal _ w => Normal b w
  | Terminated how w => Terminated how w
  | Unwinding w => Unwinding w
  | Undefined => Undefined
  end.

(** [addDeferEvent] as the specification words it: a timer on the
    monotonic clock whose deadline is the time of registration. *)
Definition addDeferEvent_as_specified (callback : EventCallback) (w : World)
    : ptr * World :=
  let '(usec, s) := now CLOCK_MONOTONIC (sys w) in
  addTimeEvent CLOCK_MONOTONIC usec 0 (defer_wrap callback) (set_sys s w).

(** ** Vocabulary of the statements *)

Section Statements.
Context {FB : FlagBits}.

(** [EventLoop::EventLoop()]: a fresh [UVLoop], no sources, no exit
    events. *)
Definition new_EventLoop (answers : nat → clockid_t → Z) : World :=
  {| sys := {| uvloop := Some {| handles := ∅ |};
               now_answers := answers; now_calls := 0%nat |};
     heap := ∅; next_ptr := 0%nat; exitEvents_ := []; log := [] |}.

(** The flags an IO dispatch reports: the backend bits converted, with
    Err added for a negative status. *)
Definition triggered_flags (status events : Z) : Z :=
  Z.lor (LibUVFlagsToIOEventFlags events)
    (if status <? 0 then IOEventFlag.Err else IOEventFlags_empty).

(** What [revents()] returns for the source at [this], if it is a live IO
    source. *)
Definition revents_at (this : ptr) (w : World) : option Z :=
  match heap w !! this with
  | Some (IOSource o) => Some (LibUVSourceIO.revents o)
  | _ => None
  end.


End Statements.

(** With the header values: an IO source on fd 3 asking for In, with a
    callback that just returns; its handle sits at address 0 of the loop. *)
Definition io_world : World :=
  (@addIOEvent header_bits 3 (@IOEventFlag.In header_bits)
     (λ _ _ _ _, ([], Returns true))
     (@new_EventLoop (λ _ _, 0))).2.

(** ** The libuv side of the flag conversion *)

Section UVMask.
Context {FB : FlagBits}.

(** The bits [IOEventFlagsToLibUVFlags] can produce and
    [LibUVFlagsToIOEventFlags] looks at. *)
Definition uv_poll_mask : Z :=
  Z.lor (Z.lor UV_READABLE UV_WRITABLE) UV_DISCONNECT.
End UVMask.

(** ** fcitx-config/optiontypename.h

    The C++ types an option can have, as far as the header tells them
    apart: the five types with a [FCITX_SPECIALIZE_TYPENAME] line, any
    enumeration, [std::vector<T>], and any other type, which has a name only
    if an overload of [configTypeNameHelper] for it is found (the primary
    template does not compile otherwise: [None]). *)

Module OptionTypeName.

Inductive CType :=
| T_bool
| T_int
| T_string
| T_Key
| T_Color
| T_enum (tag : string)
| T_vector (T : CType)
| T_other (helper : option string).

(** The overloads the [FCITX_SPECIALIZE_TYPENAME] lines define. *)
Definition configTypeNameHelper (T : CType) : option string :=
  match T with
  | T_bool => Some "Boolean"%string
  | T_int => Some "Integer"%string
  | T_string => Some "String"%string
  | T_Key => Some "Key"%string
  | T_Color => Some "Color"%string
  | T_other helper => helper
  | _ => None
  end.

(** [OptionTypeName<T>::get()]: the specialisation for vectors, the one for
    enumerations, and the primary template. *)
Fixpoint get (T : CType) : option string :=
  match T with
  | T_vector T => String.append "List|" <$> get T
  | T_enum _ => Some "Enum"%string
  | T => configTypeNameHelper T
  end.

(** The types built from the five named ones with [std::vector]. *)
Fixpoint plain (T : CType) : bool :=
  match T with
  | T_bool | T_int | T_string | T_Key | T_Color => true
  | T_vector T => plain T
  | _ => false
  end.

(** [std::vector<...<T>...>], [n] levels deep. *)
Fixpoint nested (n : nat) (T : CType) : CType :=
  match n with
  | O => T
  | S n => T_vector (nested n T)
  end.

Fixpoint list_prefix (n : nat) : string :=
  match n with
  | O => ""%string
  | S n => String.append "List|" (list_prefix n)
  end.
End OptionTypeName.

(** ** What the getters return after a setter

    [view_after m v] is [v] with the one field replaced that the setter [m]
    is named after; a setter that is no member of the source's class has no
    effect. *)
Definition view_after (m : Method) (v : SourceView) : SourceView :=
  match v, m with
  | IOView _ fd ev rev, setEnabled enabled =>
      IOView (if enabled then Enabled else Disabled) fd ev rev
  | IOView _ fd ev rev, setOneShot => IOView Oneshot fd ev rev
  | IOView st _ ev rev, setFd fd => IOView st fd ev rev
  | IOView st fd _ rev, setEvents ev => IOView st fd ev rev
  | TimeView _ t a c, setEnabled enabled =>
      TimeView (if enabled then Enabled else Disabled) t a c
  | TimeView _ t a c, setOneShot => TimeView Oneshot t a c
  | TimeView st _ a c, setTime t => TimeView st t a c
  | TimeView st t _ c, setAccuracy a => TimeView st t a c
  | TimeView st t a _, setClock c => TimeView st t a c
  | ExitView _, setEnabled enabled =>
      ExitView (if enabled then Enabled else Disabled)
  | ExitView _, setOneShot => ExitView Oneshot
  | v, _ => v
  end.

(** The state a view shows: what [isEnabled()] and [isOneShot()] are
    computed from. *)
Definition view_state (v : SourceView) : LibUVSourceEnableState :=
  match v with
  | IOView st _ _ _ => st
  | TimeView st _ _ _ => st
  | ExitView st => st
  end.

(** The setters that compare with the stored value first ([setState],
    [setFd], [setEvents]) or only assign ([setAccuracy] and the setters of an
    exit source). *)
Definition compares_first (m : Method) : bool :=
  match m with
  | setEnabled _ | setOneShot | setFd _ | setEvents _ | setAccuracy _ => true
  | _ => false
  end.

(** ** All sources and the loop together *)

Section WorldInvariant.
Context {FB : FlagBits}.

(** A poll handle belongs to an IO source, a timer handle to a timer
    source. *)
Definition kind_matches (reg : uv_registration) (o : Object) : bool :=
  match reg, o with
  | uv_poll _ _, IOSource _ => true
  | uv_timer _ _, TimeSource _ => true
  | _, _ => false
  end.

(** [handle_] of the object, if it has a [LibUVSourceBase]. *)
Definition own_handle (o : Object) : option ptr :=
  object_base o ≫= handle_.

Definition sys_handles (s : Sys) : gmap ptr uv_handle_t :=
  match uvloop s with Some l => handles l | None => ∅ end.

(** The handles of the loop after [cleanup] of a source that held
    [handle]. *)
Definition detach_opt (handle : option ptr) (m : gmap ptr uv_handle_t)
    : gmap ptr uv_handle_t :=
  match handle with
  | Some h =>
      alter (λ hd, {| data := None; closing := true;
                      registration := registration hd |}) h m
  | None => m
  end.

(** Sources and native handles refer to each other consistently: addresses
    of sources were handed out by the factories; the handle a source holds
    is an open handle of the loop, of the source's kind, whose [data] points
    back at the source; a handle whose [data] is set is held by the live
    source it points at, and a handle whose [data] is null is closing. *)
Record handles_consistent (w : World) : Prop := {
  hc_fresh : ∀ p, is_Some (heap w !! p) → (p < next_ptr w)%nat;
  hc_owner : ∀ p o h, heap w !! p = Some o → own_handle o = Some h →
    ∃ hd, handles_of w !! h = Some hd ∧ data hd = Some p ∧
      closing hd = false ∧ kind_matches (registration hd) o = true;
  hc_back : ∀ h hd, handles_of w !! h = Some hd →
    match data hd with
    | Some p => ∃ o, heap w !! p = Some o ∧ own_handle o = Some h
    | None => closing hd = true
    end
}.

(** While the loop is alive, every IO and timer source has a handle exactly
    when it is not Disabled. *)
Definition enabled_iff_handle (w : World) : Prop :=
  is_Some (uvloop (sys w)) →
  ∀ p o b, heap w !! p = Some o → object_base o = Some b →
    (is_Some (handle_ b) ↔ state_ b ≠ Disabled).

(** The callback [~UVLoop] passes to [uv_walk], for one handle: a handle
    that is not closing and has [data] set has its source cleaned up.  The
    cast of [data] to a [LibUVSourceBase] is undefined for anything but a
    live IO or timer source; here such a handle is left alone. *)
Definition UVLoop_walk_cb (handle : ptr) (w : World) : World :=
  match handles_of w !! handle with
  | Some hd =>
      if negb (closing hd) then
        match data hd with
        | Some source =>
            match heap w !! source with
            | Some (IOSource o) =>
                let '(o, s) := cleanup o (sys w) in
                set_heap (<[source := IOSource o]> (heap w)) (set_sys s w)
            | Some (TimeSource o) =>
                let '(o, s) := cleanup o (sys w) in
                set_heap (<[source := TimeSource o]> (heap w)) (set_sys s w)
            | _ => w
            end
        | None => w
        end
      else w
  | None => w
  end.

(** [uv_walk]: libuv calls the callback for the handles of the loop in the
    order of its handle queue, [order]. *)
Definition UVLoop_walk (order : list ptr) (w : World) : World :=
  foldl (λ w handle, UVLoop_walk_cb handle w) w order.

(** [~UVLoop]: the walk, then [uv_loop_close] and, while that is refused,
    [uv_run(UV_RUN_ONCE)] until it returns 0.  Of libuv this takes that
    [uv_run] completes the closes that were requested and returns 0 once no
    handle is left, and that a handle that is started and not closing keeps
    it from returning 0: the destructor then does not return ([None]).
    Afterwards the loop is gone. *)
Definition UVLoop_destroy (order : list ptr) (w : World) : option World :=
  let w := UVLoop_walk order w in
  if bool_decide (map_Forall (λ _ hd, closing hd = true) (handles_of w))
  then Some (set_sys (set_uvloop None (sys w)) w)
  else None.
End WorldInvariant.

Section Transitions.
Context {FB : FlagBits}.

(** "Has a handle exactly when not Disabled", for one object. *)
Definition enabled_iff_own (o : Object) : Prop :=
  ∀ b, object_base o = Some b → (is_Some (handle_ b) ↔ state_ b ≠ Disabled).

(** What a step on the object [o] at [p] may do to the object and to the
    handles of the loop: [r] is the object afterwards ([None] if destroyed)
    with the system afterwards.  The object keeps its class; its handle is
    the one it had, with the loop untouched, or a handle newly registered
    for it after the one it had was detached; without a handle afterwards,
    the one it had was detached. *)
Definition handle_transition (p : ptr) (o : Object) (s : Sys)
    (r : option Object * Sys) : Prop :=
  (is_Some (uvloop r.2) ↔ is_Some (uvloop s)) ∧
  match r.1 with
  | Some o2 =>
      (∀ reg, kind_matches reg o2 = kind_matches reg o) ∧
      (is_Some (uvloop s) → enabled_iff_own o → enabled_iff_own o2) ∧
      match own_handle o2 with
      | Some h' =>
          (own_handle o = Some h' ∧ sys_handles r.2 = sys_handles s) ∨
          (detach_opt (own_handle o) (sys_handles s) !! h' = None ∧
           ∃ reg, kind_matches reg o2 = true ∧
             sys_handles r.2 =
               <[h' := {| data := Some p; closing := false;
                          registration := reg |}]>
                 (detach_opt (own_handle o) (sys_handles s)))
      | None => sys_handles r.2 = detach_opt (own_handle o) (sys_handles s)
      end
  | None => sys_handles r.2 = detach_opt (own_handle o) (sys_handles s)
  end.

(** A step of a source: what it may do to the handles; and once the loop
    is gone, an object without a handle leaves the system as it is: no
    call into libuv, no reading of the clock. *)
Definition object_transition (p : ptr) (o : Object) (s : Sys)
    (r : option Object * Sys) : Prop :=
  handle_transition p o s r ∧
  (uvloop s = None → own_handle o = None → r.2 = s).

(** Both together: what the sources and the loop keep between calls. *)
Definition world_ok (w : World) : Prop :=
  handles_consistent w ∧ enabled_iff_handle w.

(** The world after allocating the object [o] at [next_ptr]. *)
Definition allocated (o : Object) (w : World) : World :=
  {| sys := sys w; heap := <[next_ptr w := o]> (heap w);
     next_ptr := S (next_ptr w); exitEvents_ := exitEvents_ w;
     log := log w |}.
End Transitions.

Section Steps.
Context {FB : FlagBits}.

(** One operation on the event loop and its sources: a method of a source
    or its destruction ([call]), one of the four factories, a dispatch by
    libuv to one of the two callbacks, or the exit walk of [exec]; with
    the world it leaves, however it ends. *)
Inductive EventLoop_step : World → World → Prop :=
| step_call c w :
    EventLoop_step w (call c w)
| step_addIOEvent fd flags callback w :
    EventLoop_step w (addIOEvent fd flags callback w).2
| step_addTimeEvent clock usec accuracy callback w :
    EventLoop_step w (addTimeEvent clock usec accuracy callback w).2
| step_addExitEvent callback w :
    EventLoop_step w (addExitEvent callback w).2
| step_addDeferEvent callback w :
    EventLoop_step w (addDeferEvent callback w).2
| step_IOEventCallback handle status events w w' :
    final_world (IOEventCallback handle status events w) = Some w' →
    EventLoop_step w w'
| step_TimeEventCallback handle w w' :
    final_world (TimeEventCallback handle w) = Some w' →
    EventLoop_step w w'
| step_exit_walk fuel iter w r w' :
    exec_loop fuel iter w = Some r → final_world r = Some w' →
    EventLoop_step w w'.

(** A world whose loop has been destroyed before any source was made. *)
Definition dead_world (answers : nat → clockid_t → Z) : World :=
  set_sys (set_uvloop None (sys (new_EventLoop answers)))
    (new_EventLoop answers).
End Steps.

Section Closing.
Context {FB : FlagBits}.

(** The handle [h], if the loop has it, is closing. *)
Definition closed_in (w : World) (h : ptr) : Prop :=
  ∀ hd, handles_of w !! h = Some hd → closing hd = true.

(** From [w] to [w'] nothing a getter returns, no exit entry and no log
    entry changed, no handle was added and none reopened. *)
Definition only_closes (w w' : World) : Prop :=
  view w' = view w ∧ exitEvents_ w' = exitEvents_ w ∧ log w' = log w ∧
  (∀ h, is_Some (handles_of w' !! h) → is_Some (handles_of w !! h)) ∧
  (∀ h, closed_in w h → closed_in w' h).
End Closing.

(* ================================================================== *)
(** * Theorems *)

Section FlagFacts.
Context {FB : FlagBits}.

Lemma testbit_flag_of_bit (b : N) (n : Z) :
  Z.testbit (flag_of_bit b) n = (Z.of_N b =? n).
Proof.
  unfold flag_of_bit. rewrite Z.shiftl_1_l.
  destruct (Z.ltb_spec n 0) as [Hn|Hn].
  - rewrite Z.testbit_neg_r by lia. symmetry. apply Z.eqb_neq. lia.
  - apply Z.pow2_bits_eqb. lia.
Qed.

Lemma truthy_land_flag (x : Z) (b : N) :
  truthy (Z.land x (flag_of_bit b)) = Z.testbit x (Z.of_N b).
Proof.
  unfold truthy.
  destruct (Z.testbit x (Z.of_N b)) eqn:Hb.
  - apply negb_true_iff, Z.eqb_neq. intros H0.
    assert (Z.testbit (Z.land x (flag_of_bit b)) (Z.of_N b) = false) as Hf
      by (rewrite H0; apply Z.bits_0).
    rewrite Z.land_spec, Hb, testbit_flag_of_bit, Z.eqb_refl in Hf.
    discriminate.
  - apply negb_false_iff, Z.eqb_eq, Z.bits_inj'. intros n _.
    rewrite Z.land_spec, testbit_flag_of_bit, Z.bits_0.
    destruct (Z.eqb_spec (Z.of_N b) n) as [<-|]; [by rewrite Hb|].
    apply andb_false_r.
Qed.

Lemma testbit_if_flag (c : bool) (b : N) (n : Z) :
  Z.testbit (if c then flag_of_bit b else 0) n = c && (Z.of_N b =? n).
Proof. destruct c; [apply testbit_flag_of_bit | apply Z.bits_0]. Qed.

Lemma IOEventFlag_bits_differ :
  In_bit ≠ Out_bit ∧ In_bit ≠ Err_bit ∧ In_bit ≠ Hup_bit ∧
  Out_bit ≠ Err_bit ∧ Out_bit ≠ Hup_bit ∧ Err_bit ≠ Hup_bit.
Proof.
  pose proof IOEventFlag_distinct as H.
  rewrite !NoDup_cons, !not_elem_of_cons in H. tauto.
Qed.

Lemma uv_poll_event_bits_differ :
  READABLE_bit ≠ WRITABLE_bit ∧ READABLE_bit ≠ DISCONNECT_bit ∧
  WRITABLE_bit ≠ DISCONNECT_bit.
Proof.
  pose proof uv_poll_event_distinct as H.
  rewrite !NoDup_cons, !not_elem_of_cons in H. tauto.
Qed.

Lemma testbit_IOEventFlagsToLibUVFlags (f n : Z) :
  Z.testbit (IOEventFlagsToLibUVFlags f) n =
  (Z.testbit f (Z.of_N In_bit) && (Z.of_N READABLE_bit =? n))
  || (Z.testbit f (Z.of_N Out_bit) && (Z.of_N WRITABLE_bit =? n))
  || (Z.testbit f (Z.of_N Hup_bit) && (Z.of_N DISCONNECT_bit =? n)).
Proof.
  unfold IOEventFlagsToLibUVFlags, IOEventFlag.In, IOEventFlag.Out,
    IOEventFlag.Hup, UV_READABLE, UV_WRITABLE, UV_DISCONNECT.
  rewrite !truthy_land_flag.
  destruct (Z.testbit f (Z.of_N In_bit)), (Z.testbit f (Z.of_N Out_bit)),
    (Z.testbit f (Z.of_N Hup_bit));
    rewrite ?Z.lor_spec, ?testbit_flag_of_bit, ?Z.bits_0; simpl;
    rewrite ?orb_false_r; reflexivity.
Qed.

Lemma testbit_LibUVFlagsToIOEventFlags (u n : Z) :
  Z.testbit (LibUVFlagsToIOEventFlags u) n =
  (Z.testbit u (Z.of_N READABLE_bit) && (Z.of_N In_bit =? n))
  || (Z.testbit u (Z.of_N WRITABLE_bit) && (Z.of_N Out_bit =? n))
  || (Z.testbit u (Z.of_N DISCONNECT_bit) && (Z.of_N Hup_bit =? n)).
Proof.
  unfold LibUVFlagsToIOEventFlags, IOEventFlag.In, IOEventFlag.Out,
    IOEventFlag.Hup, UV_READABLE, UV_WRITABLE, UV_DISCONNECT,
    IOEventFlags_empty.
  rewrite !truthy_land_flag, !Z.lor_spec, !testbit_if_flag. reflexivity.
Qed.

Lemma testbit_requestable_mask (n : Z) :
  Z.testbit requestable_mask n =
  (Z.of_N In_bit =? n) || (Z.of_N Out_bit =? n) || (Z.of_N Hup_bit =? n).
Proof.
  unfold requestable_mask, IOEventFlag.In, IOEventFlag.Out, IOEventFlag.Hup.
  rewrite !Z.lor_spec, !testbit_flag_of_bit. reflexivity.
Qed.

Lemma testbit_roundtrip (f n : Z) :
  Z.testbit (LibUVFlagsToIOEventFlags (IOEventFlagsToLibUVFlags f)) n =
  Z.testbit f n && Z.testbit requestable_mask n.
Proof.
  destruct uv_poll_event_bits_differ as (Hrw & Hrd & Hwd).
  destruct IOEventFlag_bits_differ as (Hio & _ & Hih & _ & Hoh & _).
  rewrite testbit_LibUVFlagsToIOEventFlags, !testbit_IOEventFlagsToLibUVFlags,
    testbit_requestable_mask, !Z.eqb_refl.
  replace (Z.of_N WRITABLE_bit =? Z.of_N READABLE_bit) with false
    by (symmetry; apply Z.eqb_neq; lia).
  replace (Z.of_N DISCONNECT_bit =? Z.of_N READABLE_bit) with false
    by (symmetry; apply Z.eqb_neq; lia).
  replace (Z.of_N READABLE_bit =? Z.of_N WRITABLE_bit) with false
    by (symmetry; apply Z.eqb_neq; lia).
  replace (Z.of_N DISCONNECT_bit =? Z.of_N WRITABLE_bit) with false
    by (symmetry; apply Z.eqb_neq; lia).
  replace (Z.of_N READABLE_bit =? Z.of_N DISCONNECT_bit) with false
    by (symmetry; apply Z.eqb_neq; lia).
  replace (Z.of_N WRITABLE_bit =? Z.of_N DISCONNECT_bit) with false
    by (symmetry; apply Z.eqb_neq; lia).
  rewrite !andb_true_r, !andb_false_r, !orb_false_r. simpl.
  destruct (Z.eqb_spec (Z.of_N In_bit) n) as [Hi|Hi];
    destruct (Z.eqb_spec (Z.of_N Out_bit) n) as [Ho|Ho];
    destruct (Z.eqb_spec (Z.of_N Hup_bit) n) as [Hh|Hh];
    try (exfalso; lia); try subst n;
    rewrite ?andb_true_r, ?andb_false_r, ?orb_false_r; reflexivity.
Qed.

Lemma roundtrip_masks (f : Z) :
  LibUVFlagsToIOEventFlags (IOEventFlagsToLibUVFlags f) =
  Z.land f requestable_mask.
Proof.
  apply Z.bits_inj'. intros n _.
  by rewrite testbit_roundtrip, Z.land_spec.
Qed.

Lemma land_Err_requestable_mask :
  Z.land IOEventFlag.Err requestable_mask = 0.
Proof.
  destruct IOEventFlag_bits_differ as (_ & Hie & _ & Hoe & _ & Heh).
  apply Z.bits_inj'. intros n _.
  rewrite Z.land_spec, testbit_requestable_mask, Z.bits_0.
  unfold IOEventFlag.Err. rewrite testbit_flag_of_bit.
  destruct (Z.eqb_spec (Z.of_N Err_bit) n) as [<-|]; [|done].
  simpl. rewrite !orb_false_iff, !Z.eqb_neq. lia.
Qed.

(** C5. Every flag set drawn from In, Out and Hup survives the conversion
    to libuv bits and back unchanged; the Err flag takes no part in it: a
    set that also carries Err comes back without it. *)
Theorem flags_roundtrip (f : Z) :
  Z.land f requestable_mask = f →
  LibUVFlagsToIOEventFlags (IOEventFlagsToLibUVFlags f) = f ∧
  LibUVFlagsToIOEventFlags
    (IOEventFlagsToLibUVFlags (Z.lor f IOEventFlag.Err)) = f.
Proof.
  intros Hf. rewrite !roundtrip_masks. split; [done|].
  by rewrite Z.land_lor_distr_l, land_Err_requestable_mask, Z.lor_0_r.
Qed.
Lemma eqb_of_N_ne (a b : N) : a ≠ b → (Z.of_N a =? Z.of_N b) = false.
Proof. intros. apply Z.eqb_neq. lia. Qed.

Lemma testbit_to_libuv (f : Z) :
  Z.testbit (IOEventFlagsToLibUVFlags f) (Z.of_N READABLE_bit) =
    Z.testbit f (Z.of_N In_bit) ∧
  Z.testbit (IOEventFlagsToLibUVFlags f) (Z.of_N WRITABLE_bit) =
    Z.testbit f (Z.of_N Out_bit) ∧
  Z.testbit (IOEventFlagsToLibUVFlags f) (Z.of_N DISCONNECT_bit) =
    Z.testbit f (Z.of_N Hup_bit).
Proof.
  destruct uv_poll_event_bits_differ as (Hrw & Hrd & Hwd).
  rewrite !testbit_IOEventFlagsToLibUVFlags, !Z.eqb_refl.
  rewrite (eqb_of_N_ne WRITABLE_bit READABLE_bit),
    (eqb_of_N_ne DISCONNECT_bit READABLE_bit),
    (eqb_of_N_ne READABLE_bit WRITABLE_bit),
    (eqb_of_N_ne DISCONNECT_bit WRITABLE_bit),
    (eqb_of_N_ne READABLE_bit DISCONNECT_bit),
    (eqb_of_N_ne WRITABLE_bit DISCONNECT_bit) by done.
  by rewrite !andb_true_r, !andb_false_r, !orb_false_r.
Qed.
End FlagFacts.

Lemma flags_roundtrip_witness :
  let f := Z.lor (@IOEventFlag.In header_bits) (@IOEventFlag.Hup header_bits) in
  Z.land f (@requestable_mask header_bits) = f ∧
  @LibUVFlagsToIOEventFlags header_bits
    (@IOEventFlagsToLibUVFlags header_bits f) = f ∧
  @LibUVFlagsToIOEventFlags header_bits
    (@IOEventFlagsToLibUVFlags header_bits
       (Z.lor f (@IOEventFlag.Err header_bits))) = f.
Proof.
  split; [reflexivity|].
  apply (@flags_roundtrip header_bits). reflexivity.
Defined.

(** With the header values: In|Hup is READABLE|DISCONNECT; UV_PRIORITIZED
    (8) has no counterpart and is dropped on the way back. *)
Example IOEventFlagsToLibUVFlags_In_Hup :
  @IOEventFlagsToLibUVFlags header_bits 9 = 5.
Proof. reflexivity. Qed.

Example LibUVFlagsToIOEventFlags_all :
  @LibUVFlagsToIOEventFlags header_bits 15 = 11.
Proof. reflexivity. Qed.

Example roundtrip_drops_Err :
  @LibUVFlagsToIOEventFlags header_bits
    (@IOEventFlagsToLibUVFlags header_bits 4) = 0.
Proof. reflexivity. Qed.

(** ** The base class: cleanup, init, resetEvent, setState *)

Section LibUVSourceFacts.
Context {T : Type} `{LibUVSourceLaws T}.

Lemma base_set_handle_ h (t : T) :
  base (set_handle_ h t) = {| handle_ := h; state_ := state_ (base t) |}.
Proof. unfold set_handle_. by rewrite base_set_base. Qed.

Lemma base_set_state_ st (t : T) :
  base (set_state_ st t) = {| handle_ := handle_ (base t); state_ := st |}.
Proof. unfold set_state_. by rewrite base_set_base. Qed.

Lemma setup_set_handle_ h (t : T) s : setup (set_handle_ h t) s = setup t s.
Proof. unfold set_handle_. by rewrite setup_set_base. Qed.

Lemma set_handle_set_handle_ h h' (t : T) :
  set_handle_ h (set_handle_ h' t) = set_handle_ h t.
Proof.
  unfold set_handle_. by rewrite base_set_base, set_base_set_base.
Qed.

Lemma set_handle_None_id (t : T) :
  handle_ (base t) = None → set_handle_ None t = t.
Proof.
  intros Hh. unfold set_handle_. rewrite <- Hh.
  destruct (base t) eqn:Hb. simpl. rewrite <- Hb. apply set_base_base.
Qed.

(** What [cleanup] leaves: no handle, the same state, and the loop with
    the old handle detached and closing. *)
Lemma cleanup_spec (t : T) (s : Sys) :
  cleanup t s =
  (set_handle_ None t,
   match handle_ (base t) with
   | None => s
   | Some h => set_uvloop (uv_detach_close h <$> uvloop s) s
   end).
Proof.
  unfold cleanup. destruct (handle_ (base t)) eqn:Hh; [done|].
  by rewrite set_handle_None_id.
Qed.

(** [resetEvent], written out. *)
Lemma resetEvent_spec (this : ptr) (t : T) (s : Sys) :
  resetEvent this t s =
  let s1 := (cleanup t s).2 in
  if decide (state_ (base t) = Disabled) then (set_handle_ None t, s1)
  else
    match uvloop s1 with
    | None => (set_handle_ None t, s1)
    | Some loop =>
        let t' := set_handle_ (Some (calloc loop)) t in
        (t',
         set_uvloop
           (Some {| handles :=
              <[calloc loop :=
                  {| data := Some this; closing := false;
                     registration := (setup t s1).1 |}]> (handles loop) |})
           (setup t s1).2)
    end.
Proof.
  unfold resetEvent. rewrite cleanup_spec. simpl.
  rewrite base_set_handle_. simpl.
  destruct (decide (state_ (base t) = Disabled)); [done|].
  destruct (uvloop _) as [loop|]; [|done].
  unfold init. rewrite set_handle_set_handle_, setup_set_handle_.
  by destruct (setup t _).
Qed.

(** [init], written out. *)
Lemma init_spec (this : ptr) (loop : UVLoop) (t : T) (s : Sys) :
  init this loop t s =
  (set_handle_ (Some (calloc loop)) t,
   set_uvloop
     (Some {| handles :=
        <[calloc loop :=
            {| data := Some this; closing := false;
               registration := (setup t s).1 |}]> (handles loop) |})
     (setup t s).2).
Proof.
  unfold init. rewrite setup_set_handle_. by destruct (setup t s).
Qed.

Lemma uvloop_cleanup (t : T) (s : Sys) :
  uvloop (cleanup t s).2 =
  match handle_ (base t) with
  | None => uvloop s
  | Some h => uv_detach_close h <$> uvloop s
  end.
Proof. rewrite cleanup_spec. simpl. by destruct (handle_ (base t)). Qed.

Lemma state_resetEvent this (t : T) s :
  state_ (base (resetEvent this t s).1) = state_ (base t).
Proof.
  rewrite resetEvent_spec. simpl.
  destruct (decide _); simpl; [by rewrite base_set_handle_|].
  destruct (uvloop _); simpl; by rewrite base_set_handle_.
Qed.

Lemma resetEvent_alive this (t : T) s :
  is_Some (uvloop s) → is_Some (uvloop (resetEvent this t s).2).
Proof.
  intros [l Hl]. rewrite resetEvent_spec. simpl.
  assert (is_Some (uvloop (cleanup t s).2)) as [l1 Hl1].
  { rewrite uvloop_cleanup, Hl. destruct (handle_ (base t)); by eexists. }
  destruct (decide _); [by eexists|]. rewrite Hl1. by eexists.
Qed.

(** After [resetEvent] on a live loop the source and the loop agree. *)
Lemma resetEvent_handle_ok this (t : T) s :
  is_Some (uvloop s) →
  handle_ok this (resetEvent this t s).1 (resetEvent this t s).2 = true.
Proof.
  intros [l Hl]. rewrite resetEvent_spec. simpl.
  assert (is_Some (uvloop (cleanup t s).2)) as [l1 Hl1].
  { rewrite uvloop_cleanup, Hl. destruct (handle_ (base t)); by eexists. }
  unfold handle_ok.
  destruct (decide (state_ (base t) = Disabled)) as [Hd|Hd]; simpl.
  - rewrite Hl1, base_set_handle_. simpl. by apply bool_decide_eq_true.
  - rewrite Hl1. simpl. rewrite base_set_handle_. simpl.
    rewrite lookup_insert_eq. simpl.
    rewrite andb_true_r. apply andb_true_iff. split.
    + by apply bool_decide_eq_true.
    + by apply bool_decide_eq_true.
Qed.

(** The handle the source had is detached and closing afterwards. *)
Lemma resetEvent_tears_down this (t : T) s l h hd :
  uvloop s = Some l → handle_ (base t) = Some h →
  handles l !! h = Some hd →
  ∃ l', uvloop (resetEvent this t s).2 = Some l' ∧
    handles l' !! h =
      Some {| data := None; closing := true;
              registration := registration hd |}.
Proof.
  intros Hl Hh Hhd. rewrite resetEvent_spec. simpl.
  pose proof (uvloop_cleanup t s) as Hc. rewrite Hh, Hl in Hc. simpl in Hc.
  assert (handles (uv_detach_close h l) !! h =
          Some {| data := None; closing := true;
                  registration := registration hd |}) as Hlook.
  { unfold uv_detach_close. simpl. by rewrite lookup_alter_eq, Hhd. }
  destruct (decide _); [by eexists|].
  rewrite Hc. simpl. eexists. split; [done|]. simpl.
  rewrite lookup_insert_ne; [done|].
  intros Heq. pose proof (is_fresh (dom (handles (uv_detach_close h l)))) as Hf.
  apply Hf. unfold calloc in Heq. rewrite Heq.
  apply elem_of_dom. by eexists.
Qed.

(** Unless Disabled, the source owns a new handle registered by [setup]. *)
Lemma resetEvent_rebuilds this (t : T) s l :
  uvloop s = Some l → state_ (base t) ≠ Disabled →
  ∃ h l', handle_ (base (resetEvent this t s).1) = Some h ∧
    handles l !! h = None ∧
    uvloop (resetEvent this t s).2 = Some l' ∧
    handles l' !! h =
      Some {| data := Some this; closing := false;
              registration := (setup t (cleanup t s).2).1 |}.
Proof.
  intros Hl Hd. rewrite resetEvent_spec. simpl.
  pose proof (uvloop_cleanup t s) as Hc. rewrite Hl in Hc.
  destruct (decide _); [done|].
  set (l1 := match handle_ (base t) with
             | Some h => uv_detach_close h l | None => l end).
  assert (uvloop (cleanup t s).2 = Some l1) as Hl1.
  { rewrite Hc. unfold l1. by destruct (handle_ (base t)). }
  assert (dom (handles l1) = dom (handles l)) as Hdom.
  { unfold l1. destruct (handle_ (base t)); [|done].
    unfold uv_detach_close. simpl. apply leibniz_equiv, dom_alter. }
  rewrite Hl1. simpl. eexists (calloc l1), _.
  rewrite base_set_handle_. simpl. split; [done|]. split.
  - apply not_elem_of_dom. rewrite <- Hdom. unfold calloc. apply is_fresh.
  - split; [done|]. simpl. by rewrite lookup_insert_eq.
Qed.

Lemma setup_after_cleanup (t t' : T) s :
  (setup t (cleanup t' s).2).1 = (setup t s).1.
Proof.
  rewrite cleanup_spec. simpl.
  destruct (handle_ (base t')); [apply setup_set_uvloop | done].
Qed.

(** Teardown-then-rebuild: what [resetEvent] does to a source that agreed
    with the loop before one of its fields was changed. *)
Lemma resetEvent_reconciles this (t0 t : T) s :
  handle_ok this t0 s = true → handle_ (base t) = handle_ (base t0) →
  let r := resetEvent this t s in
  handle_ok this r.1 r.2 = true ∧
  (∀ h, handle_ (base t0) = Some h →
    ∃ l' hd, uvloop r.2 = Some l' ∧ handles l' !! h = Some hd ∧
      data hd = None ∧ closing hd = true) ∧
  (state_ (base r.1) ≠ Disabled →
    ∃ h l l', handle_ (base r.1) = Some h ∧ uvloop s = Some l ∧
      handles l !! h = None ∧ uvloop r.2 = Some l' ∧
      handles l' !! h =
        Some {| data := Some this; closing := false;
                registration := (setup r.1 s).1 |}).
Proof.
  intros Hok Hh r. unfold handle_ok in Hok.
  destruct (uvloop s) as [l|] eqn:Hl; [|done].
  split; [apply resetEvent_handle_ok; by eexists|]. split.
  - intros h Hh0. rewrite Hh0 in Hok, Hh.
    apply andb_true_iff in Hok as [_ Hok].
    destruct (handles l !! h) as [hd|] eqn:Hhd; [|done].
    destruct (resetEvent_tears_down this t s l h hd Hl Hh Hhd) as (l' & Hl' & Hlook).
    by exists l', {| data := None; closing := true;
                    registration := registration hd |}.
  - intros Hd. unfold r in Hd. rewrite state_resetEvent in Hd.
    destruct (resetEvent_rebuilds this t s l Hl Hd)
      as (h & l' & H1 & H2 & H3 & H4).
    exists h, l, l'. repeat split; try done.
    rewrite H4, setup_after_cleanup.
    assert (setup r.1 s = setup t s) as ->; [|done].
    unfold r. rewrite resetEvent_spec. simpl.
    destruct (decide _); [done|].
    destruct (uvloop (cleanup t s).2); simpl;
      by rewrite setup_set_handle_.
Qed.

Lemma handle_set_state_ st (t : T) :
  handle_ (base (set_state_ st t)) = handle_ (base t).
Proof. by rewrite base_set_state_. Qed.

(** The agreement of source and loop says in particular that the source
    has a handle exactly when it is not Disabled. *)
Lemma handle_ok_iff this (t : T) s :
  handle_ok this t s = true →
  (is_Some (handle_ (base t)) ↔ state_ (base t) ≠ Disabled).
Proof.
  unfold handle_ok. destruct (uvloop s); [|done].
  destruct (handle_ (base t)).
  - intros [Hd _]%andb_true_iff. apply bool_decide_eq_true in Hd.
    split; [done|by eexists].
  - intros Hd%bool_decide_eq_true. split; [by intros [? ?]|done].
Qed.
End LibUVSourceFacts.

(** ** The two derived classes satisfy the laws *)

Global Instance LibUVSourceIO_laws {FB : FlagBits} :
  LibUVSourceLaws LibUVSourceIO.t.
Proof. split; try done. by intros []. Qed.

Global Instance LibUVSourceTime_laws : LibUVSourceLaws LibUVSourceTime.t.
Proof. split; try done. by intros []. Qed.

(** ** Setters keep source and loop in agreement *)

Section ClockFacts.
Context {FB : FlagBits}.

Lemma wrap64_range x : is_uint64 (wrap64 x).
Proof. unfold is_uint64, wrap64. apply Z.mod_pos_bound. lia. Qed.

Lemma wrap64_id x : is_uint64 x → wrap64 x = x.
Proof. unfold is_uint64, wrap64. intros. by apply Z.mod_small. Qed.

Lemma now_range clockid s : is_uint64 (now clockid s).1.
Proof. apply wrap64_range. Qed.

(** The timeout [setup] passes to [uv_timer_start]. *)
Lemma timer_setup_timeout (o : LibUVSourceTime.t) (s : Sys) :
  is_uint64 (LibUVSourceTime.time_ o) →
  (LibUVSourceTime.setup o s).1 =
  uv_timer
    (Z.max 0 (LibUVSourceTime.time_ o - (now (LibUVSourceTime.clock_ o) s).1)
     / 1000) 0.
Proof.
  intros Ht. pose proof (now_range (LibUVSourceTime.clock_ o) s) as Hn.
  unfold LibUVSourceTime.setup.
  destruct (now (LibUVSourceTime.clock_ o) s) as [curr s1]. simpl in *.
  unfold is_uint64 in *. f_equal. f_equal.
  destruct (Z.ltb_spec curr (LibUVSourceTime.time_ o)).
  - rewrite wrap64_id by (unfold is_uint64; lia). lia.
  - lia.
Qed.
End ClockFacts.

Section ReconcileFacts.
Context {FB : FlagBits}.

Lemma heap_set_heap h w : heap (set_heap h w) = h.
Proof. done. Qed.

Lemma sys_set_heap_set_sys h s w : sys (set_heap h (set_sys s w)) = s.
Proof. done. Qed.











End ReconcileFacts.

Section ReconcileWitness.
#[local] Existing Instance header_bits.

End ReconcileWitness.

(** ** The timer's native registration *)

Section TimerFacts.
Context {FB : FlagBits}.

(** C8. When a timer source registers its native handle ([init]), the
    timeout requested from libuv is max(0, deadline - now(clock)) in
    microseconds divided by 1000, rounding down, with repeat 0 (fire once);
    it is 0 for every deadline less than a millisecond after now. *)
Theorem timer_timeout (this : ptr) (loop : UVLoop) (o : LibUVSourceTime.t)
    (s : Sys) :
  is_uint64 (LibUVSourceTime.time_ o) →
  let curr := (now (LibUVSourceTime.clock_ o) s).1 in
  let remaining := Z.max 0 (LibUVSourceTime.time_ o - curr) in
  ∃ loop',
    let handle := calloc loop in
    (init this loop o s).1 = set_handle_ (Some handle) o ∧
    uvloop (init this loop o s).2 = Some loop' ∧
    handles loop' !! handle =
      Some {| data := Some this; closing := false;
              registration := uv_timer (remaining / 1000) 0 |} ∧
    (LibUVSourceTime.time_ o - curr < 1000 → remaining / 1000 = 0).
Proof.
  intros Ht curr remaining. rewrite init_spec.
  eexists. split; [done|]. split; [done|]. split.
  - cbn [handles]. rewrite lookup_insert_eq. do 2 f_equal.
    by apply timer_setup_timeout.
  - intros Hlt. apply Z.div_small. lia.
Qed.

Lemma timer_timeout_witness :
  let o := {| LibUVSourceTime.base_ := {| handle_ := None; state_ := Oneshot |};
              LibUVSourceTime.time_ := 5002500;
              LibUVSourceTime.clock_ := CLOCK_MONOTONIC;
              LibUVSourceTime.accuracy_ := 0;
              LibUVSourceTime.callback_ := λ _ _ _, ([], Returns true) |} in
  let s := {| uvloop := Some {| handles := ∅ |};
              now_answers := λ _ _, 5000000; now_calls := 0 |} in
  is_uint64 5002500 ∧
  ∃ loop', uvloop (init 7%nat {| handles := ∅ |} o s).2 = Some loop' ∧
    handles loop' !! calloc {| handles := ∅ |} =
      Some {| data := Some 7%nat; closing := false;
              registration := uv_timer 2 0 |}.
Proof.
  intros o s.
  assert (is_uint64 5002500) as Hr by (unfold is_uint64; lia).
  split; [exact Hr|].
  destruct (timer_timeout 7%nat {| handles := ∅ |} o s Hr)
    as (loop' & _ & Hl & Hh & _).
  exists loop'. split; [exact Hl|]. exact Hh.
Defined.

(** C10. [setAccuracy] changes the accuracy field and nothing else: the
    system (loop, handles, clock) is untouched and every other field keeps
    its value; [setup] never reads the accuracy, so the registration a later
    reconcile produces does not depend on it.  [setTime] and [setClock]
    reconcile even when handed the value already stored: the handle the
    source had is closed and a different one is installed. *)
Theorem setAccuracy_frame (this : ptr) (v : Z) (o : LibUVSourceTime.t)
    (s : Sys) :
  let o' := LibUVSourceTime.setAccuracy v o in
  method this (setAccuracy v) (TimeSource o) s = (Some (TimeSource o'), s) ∧
  (LibUVSourceTime.accuracy o' = v ∧
   LibUVSourceTime.base_ o' = LibUVSourceTime.base_ o ∧
   LibUVSourceTime.time_ o' = LibUVSourceTime.time_ o ∧
   LibUVSourceTime.clock_ o' = LibUVSourceTime.clock_ o ∧
   LibUVSourceTime.callback_ o' = LibUVSourceTime.callback_ o) ∧
  (∀ s0, LibUVSourceTime.setup o' s0 = LibUVSourceTime.setup o s0) ∧
  (∀ h, handle_ok this o s = true → handle_ (base o) = Some h →
     ∀ r, r = LibUVSourceTime.setTime this (LibUVSourceTime.time_ o) o s ∨
          r = LibUVSourceTime.setClock this (LibUVSourceTime.clock_ o) o s →
     handle_ok this r.1 r.2 = true ∧
     (∃ h', handle_ (base r.1) = Some h' ∧ h' ≠ h) ∧
     (∃ l' hd, uvloop r.2 = Some l' ∧ handles l' !! h = Some hd ∧
        data hd = None ∧ closing hd = true)).
Proof.
  intros o'. split; [done|]. split; [done|]. split; [done|].
  intros h Hok Hh r Hr.
  assert (r = resetEvent this o s) as ->.
  { destruct Hr as [->| ->]; unfold LibUVSourceTime.setTime,
      LibUVSourceTime.setClock; by destruct o. }
  destruct (resetEvent_reconciles this o o s Hok eq_refl) as (H1 & H2 & H3).
  split; [done|]. split; [|by apply H2].
  pose proof (proj1 (handle_ok_iff this o s Hok)) as Hen.
  rewrite Hh in Hen. specialize (Hen (ltac:(by eexists))).
  rewrite state_resetEvent in H3.
  destruct (H3 Hen) as (h' & l & l' & Ha & Hb & Hc & _).
  exists h'. split; [done|]. intros ->.
  unfold handle_ok in Hok. rewrite Hb, Hh, Hc in Hok.
  by rewrite andb_false_r in Hok.
Qed.
End TimerFacts.

Section TimerWitness.
#[local] Existing Instance header_bits.

Lemma setAccuracy_frame_witness :
  let w := (addTimeEvent CLOCK_MONOTONIC 5002500 0
              (λ _ _ _, ([], Returns true)) (new_EventLoop (λ _ _, 5000000))).2 in
  match heap w !! 0%nat with
  | Some (TimeSource o) =>
      handle_ok 0%nat o (sys w) = true ∧
      ∃ h h', handle_ (base o) = Some h ∧
        handle_
          (base (LibUVSourceTime.setTime 0%nat 5002500 o (sys w)).1) = Some h' ∧
        h' ≠ h
  | _ => False
  end.
Proof.
  intros w.
  destruct (heap w !! 0%nat) as [[o|o|o]|] eqn:Hw; try (by vm_compute in Hw).
  assert (handle_ok 0%nat o (sys w) = true) as Hok.
  { vm_compute in Hw. injection Hw as <-. by vm_compute. }
  assert (handle_ (base o) = Some 0%nat) as Hh.
  { vm_compute in Hw. injection Hw as <-. by vm_compute. }
  assert (LibUVSourceTime.time_ o = 5002500) as Ht.
  { vm_compute in Hw. injection Hw as <-. by vm_compute. }
  split; [exact Hok|].
  destruct (proj2 (proj2 (proj2 (setAccuracy_frame 0%nat 9 o (sys w))))
              0%nat Hok Hh
              (LibUVSourceTime.setTime 0%nat (LibUVSourceTime.time_ o) o (sys w))
              (or_introl eq_refl)) as (_ & (h' & Hh' & Hne) & _).
  exists 0%nat, h'. rewrite <- Ht. done.
Defined.
End TimerWitness.

(** ** Dispatch *)

Section DispatchFacts.
Context {FB : FlagBits}.

Lemma log_call c w : log (call c w) = log w.
Proof.
  destruct c as [this m]. unfold call.
  destruct (heap w !! this); [|done]. by destruct (method _ _ _ _).
Qed.

Lemma exitEvents_call c w : exitEvents_ (call c w) = exitEvents_ w.
Proof.
  destruct c as [this m]. unfold call.
  destruct (heap w !! this); [|done]. by destruct (method _ _ _ _).
Qed.

Lemma log_run_calls calls w : log (run_calls calls w) = log w.
Proof.
  revert w. induction calls as [|c calls IH]; intros w; [done|].
  simpl. by rewrite IH, log_call.
Qed.

Lemma exitEvents_run_calls calls w :
  exitEvents_ (run_calls calls w) = exitEvents_ w.
Proof.
  revert w. induction calls as [|c calls IH]; intros w; [done|].
  simpl. by rewrite IH, exitEvents_call.
Qed.

(** [invoke], written out. *)
Lemma invoke_spec args callback w :
  invoke args callback w =
  (run_calls (callback (view w)).1
     (set_log (log w ++ [{| inv_args := args; inv_view := view w |}]) w),
   (callback (view w)).2).
Proof. unfold invoke. by destruct (callback (view w)). Qed.

Lemma log_invoke args callback w :
  log (invoke args callback w).1 =
  log w ++ [{| inv_args := args; inv_view := view w |}].
Proof. rewrite invoke_spec. simpl. by rewrite log_run_calls. Qed.

(** [resetEvent] changes nothing of a source but its handle. *)
Lemma resetEvent_fst {T} `{LibUVSourceLaws T} this (t : T) s :
  ∃ h, (resetEvent this t s).1 = set_handle_ h t.
Proof.
  rewrite resetEvent_spec. simpl.
  destruct (decide _); [by eexists|].
  destruct (uvloop _); by eexists.
Qed.

(** [setEnabled(false)] on a source that is not Disabled. *)
Lemma setEnabled_false_spec {T} `{LibUVSourceLaws T} this (t : T) s :
  state_ (base t) ≠ Disabled →
  ∃ h, (LibUVSource_setEnabled this false t s).1 =
       set_handle_ h (set_state_ Disabled t).
Proof.
  intros Hd. unfold LibUVSource_setEnabled, setState.
  destruct (decide _) as [_|Hn]; [|done]. apply resetEvent_fst.
Qed.

Lemma isOneShot_not_Disabled {T} `{LibUVSource T} (t : T) :
  isOneShot t = true → state_ (base t) ≠ Disabled.
Proof.
  unfold isOneShot. intros Ho%bool_decide_eq_true. by rewrite Ho.
Qed.


Lemma oneshot_entry_Time w source (o : LibUVSourceTime.t) :
  heap w !! source = Some (TimeSource o) → isOneShot o = true →
  ∃ o', heap (call (source, setEnabled false) w) !! source = Some (TimeSource o') ∧
    LibUVSourceTime.callback_ o' = LibUVSourceTime.callback_ o ∧
    observe (TimeSource o') =
      TimeView Disabled (LibUVSourceTime.time_ o) (LibUVSourceTime.accuracy_ o)
        (LibUVSourceTime.clock_ o).
Proof.
  intros Hheap Ho. unfold call. rewrite Hheap. cbn [method].
  destruct (setEnabled_false_spec source o (sys w)
              (isOneShot_not_Disabled o Ho)) as [h Hh].
  destruct (LibUVSource_setEnabled source false o (sys w)) as [o' s'].
  simpl in Hh. subst o'. eexists. rewrite heap_set_heap, lookup_insert_eq.
  split; [done|]. by destruct o.
Qed.

Lemma sources_view w this :
  sources (view w) !! this = observe <$> heap w !! this.
Proof. unfold view. simpl. apply lookup_fmap. Qed.


Lemma triggered_flags_spec status events :
  (if status <? 0
   then Z.lor (LibUVFlagsToIOEventFlags events) IOEventFlag.Err
   else LibUVFlagsToIOEventFlags events) = triggered_flags status events.
Proof.
  unfold triggered_flags. destruct (status <? 0); [done|].
  by rewrite Z.lor_0_r.
Qed.

(** [IOEventCallback], written out for a handle that points at a live IO
    source. *)
Lemma IOEventCallback_spec handle status events w source o :
  handle_data handle w = Some source →
  heap w !! source = Some (IOSource o) →
  let entry := if isOneShot o then call (source, setEnabled false) w else w in
  let flags := triggered_flags status events in
  let r := invoke (IOArgs source (LibUVSourceIO.fd o) flags)
             (λ v, LibUVSourceIO.callback_ o v source (LibUVSourceIO.fd o) flags)
             entry in
  IOEventCallback handle status events w =
  match r.2 with
  | Returns _ => Normal () r.1
  | ThrowsStdException => Terminated FCITX_FATAL r.1
  | ThrowsOther => Unwinding r.1
  end.
Proof.
  intros Hd Hheap entry flags r. unfold IOEventCallback.
  rewrite Hd, Hheap, triggered_flags_spec.
  fold entry. fold flags. fold r. by destruct r as [w' []].
Qed.


(** [TimeEventCallback], written out for a handle that points at a live
    timer source. *)
Lemma TimeEventCallback_spec handle w source o :
  handle_data handle w = Some source →
  heap w !! source = Some (TimeSource o) →
  let entry := if isOneShot o then call (source, setEnabled false) w else w in
  let r := invoke (TimeArgs source (LibUVSourceTime.time o))
             (λ v, LibUVSourceTime.callback_ o v source (LibUVSourceTime.time o))
             entry in
  TimeEventCallback handle w =
  match r.2 with
  | Returns _ =>
      match get_time source r.1 with
      | Some o' =>
          if isEnabled o' then
            Normal ()
              (set_heap
                 (<[source := TimeSource (resetEvent source o' (sys r.1)).1]>
                    (heap r.1))
                 (set_sys (resetEvent source o' (sys r.1)).2 r.1))
          else Normal () r.1
      | None => Normal () r.1
      end
  | ThrowsStdException => Terminated std_abort r.1
  | ThrowsOther => Unwinding r.1
  end.
Proof.
  intros Hd Hheap entry r. unfold TimeEventCallback.
  rewrite Hd, Hheap. fold entry. fold r.
  destruct r as [w' []]; try done. simpl.
  destruct (get_time source w') as [o'|]; [|done].
  destruct (isEnabled o'); [|done]. by destruct (resetEvent _ _ _).
Qed.

(** Re-arming: [resetEvent] on a live loop gives a source that is not
    Disabled a new handle registered by [setup]. *)
Lemma rearm_Time this w (o : LibUVSourceTime.t) :
  heap w !! this = Some (TimeSource o) →
  is_Some (uvloop (sys w)) →
  let r := resetEvent this o (sys w) in
  let w' := set_heap (<[this := TimeSource r.1]> (heap w)) (set_sys r.2 w) in
  source_ok this w' = true ∧ rebuilt this w w'.
Proof.
  intros Hheap [l Hl] r w'. subst w' r. split.
  - unfold source_ok.
    rewrite heap_set_heap, sys_set_heap_set_sys, lookup_insert_eq.
    apply resetEvent_handle_ok. by eexists.
  - intros o2 b2 Ho2 Hb2 Hd.
    rewrite heap_set_heap, lookup_insert_eq in Ho2. injection Ho2 as <-.
    simpl in Hb2. injection Hb2 as <-.
    assert (state_ (base o) ≠ Disabled) as Hd'.
    { by rewrite <- (state_resetEvent this o (sys w)). }
    destruct (resetEvent_rebuilds this o (sys w) l Hl Hd')
      as (h & l' & H1 & H2 & H3 & H4).
    exists h, (setup (resetEvent this o (sys w)).1 (sys w)).1.
    unfold handles_of.
    rewrite sys_set_heap_set_sys, Hl, H3.
    split; [done|]. split; [done|]. split; [done|].
    rewrite H4, setup_after_cleanup.
    destruct (resetEvent_fst this o (sys w)) as [h0 Hh0].
    by rewrite Hh0, setup_set_handle_.
Qed.

(** C3. On a timer dispatch a OneShot source is Disabled before the
    callback is entered; the callback is invoked once with (source,
    deadline); when it has returned, the timer is reconciled again iff the
    reference taken before the call still resolves and the source is not
    Disabled, and on a live loop that gives it a new armed handle;
    otherwise the dispatcher leaves the world as the callback left it. *)
Theorem Time_dispatch (handle : ptr) (w : World) (source : ptr)
    (o : LibUVSourceTime.t) :
  handle_data handle w = Some source →
  heap w !! source = Some (TimeSource o) →
  let entry := if isOneShot o then call (source, setEnabled false) w else w in
  let inv := {| inv_args := TimeArgs source (LibUVSourceTime.time_ o);
                inv_view := view entry |} in
  let reaction :=
    LibUVSourceTime.callback_ o (view entry) source (LibUVSourceTime.time_ o) in
  let after := run_calls reaction.1 (set_log (log entry ++ [inv]) entry) in
  (isOneShot o = true →
     sources (view entry) !! source =
       Some (TimeView Disabled (LibUVSourceTime.time_ o)
               (LibUVSourceTime.accuracy_ o) (LibUVSourceTime.clock_ o))) ∧
  log after = log w ++ [inv] ∧
  (∀ b, reaction.2 = Returns b →
     match get_time source after with
     | Some o' =>
         if decide (state_ (base o') ≠ Disabled) then
           let r := resetEvent source o' (sys after) in
           let w' := set_heap (<[source := TimeSource r.1]> (heap after))
                       (set_sys r.2 after) in
           TimeEventCallback handle w = Normal () w' ∧
           (is_Some (uvloop (sys after)) →
              source_ok source w' = true ∧ rebuilt source after w')
         else TimeEventCallback handle w = Normal () after
     | None => TimeEventCallback handle w = Normal () after
     end).
Proof.
  intros Hd Hheap entry inv reaction after.
  assert (log entry = log w) as Hlog.
  { unfold entry. destruct (isOneShot o); [by rewrite log_call|done]. }
  split; [|split].
  - intros Ho.
    destruct (oneshot_entry_Time w source o Hheap Ho) as (o' & Hheap' & _ & Hobs).
    unfold entry. rewrite Ho, sources_view, Hheap'.
    change (Some (observe (TimeSource o')) = Some
      (TimeView Disabled (LibUVSourceTime.time_ o)
         (LibUVSourceTime.accuracy_ o) (LibUVSourceTime.clock_ o))).
    by rewrite Hobs.
  - unfold after. rewrite log_run_calls. simpl. by rewrite Hlog.
  - intros b Hret.
    rewrite (TimeEventCallback_spec _ _ _ _ Hd Hheap). fold entry.
    rewrite invoke_spec. unfold LibUVSourceTime.time. cbn [fst snd].
    fold inv. fold reaction. rewrite Hret. fold after.
    destruct (get_time source after) as [o'|] eqn:Hget; [|done].
    unfold isEnabled. destruct (decide (state_ (base o') ≠ Disabled)) as [He|He].
    + rewrite bool_decide_eq_true_2 by done. split; [done|].
      intros Hl. apply rearm_Time; [|done].
      unfold get_time in Hget.
      by destruct (heap after !! source) as [[]|]; simplify_eq.
    + by rewrite bool_decide_eq_false_2.
Qed.
End DispatchFacts.

(** ** The exit walk *)

Section ExitFacts.
Context {FB : FlagBits}.

Lemma heap_set_log l w : heap (set_log l w) = heap w.
Proof. done. Qed.

(** No method call brings an object back, or turns it into one of another
    class. *)
Lemma method_keeps_class this m o s o' :
  (method this m o s).1 = Some o' →
  match o, o' with
  | IOSource _, IOSource _ | TimeSource _, TimeSource _
  | ExitSource _, ExitSource _ => True
  | _, _ => False
  end.
Proof.
  destruct o as [a|a|a], m; simpl;
    repeat match goal with
           | |- context [let '(_, _) := ?x in _] => destruct x
           end; simpl; intros; by simplify_eq.
Qed.

Lemma get_exit_call c w ref :
  is_Some (get_exit ref (call c w)) → is_Some (get_exit ref w).
Proof.
  destruct c as [this m]. unfold call.
  destruct (heap w !! this) as [o|] eqn:Hheap; [|done].
  pose proof (method_keeps_class this m o (sys w)) as Hk.
  destruct (method this m o (sys w)) as [o' s']. simpl in Hk.
  unfold get_exit. rewrite heap_set_heap.
  destruct (decide (ref = this)) as [->|Hne].
  - rewrite Hheap. destruct o' as [o'|].
    + rewrite lookup_insert_eq. specialize (Hk o' eq_refl).
      destruct o, o'; first [done | by intros [? ?]].
    + rewrite lookup_delete_eq. by intros [? ?].
  - destruct o' as [o'|].
    + by rewrite lookup_insert_ne.
    + by rewrite lookup_delete_ne.
Qed.

Lemma get_exit_run_calls calls w ref :
  is_Some (get_exit ref (run_calls calls w)) → is_Some (get_exit ref w).
Proof.
  revert w. induction calls as [|c calls IH]; intros w; [done|].
  simpl. intros H. by apply (get_exit_call c), IH.
Qed.

Lemma get_exit_invoke args callback w ref :
  is_Some (get_exit ref (invoke args callback w).1) → is_Some (get_exit ref w).
Proof. rewrite invoke_spec. simpl. apply get_exit_run_calls. Qed.

Lemma exitEvents_invoke args callback w :
  exitEvents_ (invoke args callback w).1 = exitEvents_ w.
Proof. rewrite invoke_spec. simpl. by rewrite exitEvents_run_calls. Qed.

(** [exec_visit], written out. *)
Lemma exec_visit_spec ref w :
  exec_visit ref w =
  match get_exit ref w with
  | Some event =>
      if LibUVSourceExit.isEnabled event then
        let entry :=
          if LibUVSourceExit.isOneShot event
          then call (ref, setEnabled false) w else w in
        let r := invoke (EventArgs ref)
                   (λ v, LibUVSourceExit.callback_ event v ref) entry in
        match r.2 with
        | Returns _ => Normal () r.1
        | ThrowsStdException => Terminated std_abort r.1
        | ThrowsOther => Unwinding r.1
        end
      else Normal () w
  | None => Normal () w
  end.
Proof.
  unfold exec_visit. destruct (get_exit ref w) as [event|]; [|done].
  destruct (LibUVSourceExit.isEnabled event); [|done]. simpl.
  by destruct (invoke _ _ _) as [w' []].
Qed.

(** What a visit leaves: the entries untouched, at most one more
    invocation, no object brought back. *)
Lemma exec_visit_frame ref w w' :
  final_world (exec_visit ref w) = Some w' →
  exitEvents_ w' = exitEvents_ w ∧
  (∀ r, is_Some (get_exit r w') → is_Some (get_exit r w)).
Proof.
  rewrite exec_visit_spec.
  destruct (get_exit ref w) as [event|]; [|by intros [= <-]].
  destruct (LibUVSourceExit.isEnabled event); [|by intros [= <-]].
  cbv zeta. set (entry := if LibUVSourceExit.isOneShot event then _ else _).
  set (r := invoke _ _ entry).
  assert (exitEvents_ r.1 = exitEvents_ w) as He.
  { unfold r. rewrite exitEvents_invoke. unfold entry.
    destruct (LibUVSourceExit.isOneShot event); [apply exitEvents_call|done]. }
  assert (∀ x, is_Some (get_exit x r.1) → is_Some (get_exit x w)) as Hg.
  { intros x Hx. unfold r in Hx. apply get_exit_invoke in Hx.
    unfold entry in Hx.
    destruct (LibUVSourceExit.isOneShot event); [by apply get_exit_call in Hx|done]. }
  destruct (r.2); intros [= <-]; done.
Qed.

Lemma visit_meets_specification ref w : visit_as_specified ref w.
Proof.
  unfold visit_as_specified. rewrite exec_visit_spec.
  destruct (get_exit ref w) as [event|] eqn:Hget; [|done].
  destruct (LibUVSourceExit.isEnabled event) eqn:Hen; [|done].
  cbv zeta. set (entry := if LibUVSourceExit.isOneShot event then _ else _).
  set (r := invoke _ _ entry).
  exists r.1. split; [by destruct (r.2)|]. split.
  - unfold r. rewrite log_invoke. unfold entry.
    destruct (LibUVSourceExit.isOneShot event); [by rewrite log_call|done].
  - rewrite sources_view. unfold get_exit in Hget.
    destruct (heap w !! ref) as [[| |event']|] eqn:Hheap; try done.
    injection Hget as ->. unfold entry.
    destruct (LibUVSourceExit.isOneShot event) eqn:Hone.
    + unfold call. rewrite Hheap. simpl. by rewrite lookup_insert_eq.
    + rewrite Hheap. simpl. f_equal. f_equal.
      unfold LibUVSourceExit.isEnabled, LibUVSourceExit.isOneShot in *.
      apply bool_decide_eq_true in Hen. apply bool_decide_eq_false in Hone.
      by destruct (LibUVSourceExit.state_ event).
Qed.

(** The iterator loop with [erase] is the walk in registration order, and
    one unit of fuel per entry is enough. *)
Lemma exec_loop_exit_walk fuel kept rest w :
  exitEvents_ w = kept ++ rest → (length rest ≤ fuel)%nat →
  exec_loop fuel (length kept) w = Some (exit_walk kept rest w).
Proof.
  revert fuel kept w. induction rest as [|ref rest IH]; intros fuel kept w He Hf.
  - rewrite app_nil_r in He.
    assert (exitEvents_ w !! length kept = None) as Hl
      by (rewrite He; by apply lookup_ge_None).
    destruct fuel; simpl; by rewrite Hl.
  - assert (exitEvents_ w !! length kept = Some ref) as Hl
      by (rewrite He; apply list_lookup_middle; done).
    destruct fuel as [|fuel]; [simpl in Hf; lia|].
    simpl in Hf. simpl. rewrite Hl.
    destruct (exec_visit ref w) as [[] w1|how w1|w1|] eqn:Hv; try done.
    destruct (exec_visit_frame ref w w1) as [He1 _]; [by rewrite Hv|].
    destruct (isValid_exit ref w1); simpl.
    + replace (S (length kept)) with (length (kept ++ [ref]))
        by (rewrite length_app; simpl; lia).
      apply IH; [|lia]. by rewrite He1, He, <- app_assoc.
    + rewrite He1, He, delete_middle. apply IH; [done|lia].
Qed.

(** The invocations of a walk over [rest], whatever way it ends. *)
Lemma exit_walk_fired w0 kept rest w w' :
  (∀ r, is_Some (get_exit r w) → is_Some (get_exit r w0)) →
  final_world (exit_walk kept rest w) = Some w' →
  ∃ fired, log w' = log w ++ fired ∧ fired_as_specified w0 rest fired.
Proof.
  revert kept w. induction rest as [|ref rest IH]; intros kept w Hw0 Hfin.
  - simpl in Hfin. injection Hfin as <-. exists [].
    split; [by rewrite app_nil_r|]. split; [constructor|constructor].
  - simpl in Hfin.
    pose proof (visit_meets_specification ref w) as Hvis.
    unfold visit_as_specified in Hvis.
    assert (∃ w1 fired1, final_world (exec_visit ref w) = Some w1 ∧
              log w1 = log w ++ fired1 ∧
              fired_as_specified w0 [ref] fired1) as (w1 & fired1 & Hv & Hl1 & Hf1).
    { destruct (get_exit ref w) as [event|] eqn:Hget.
      - destruct (LibUVSourceExit.isEnabled event).
        + destruct Hvis as (w1 & Hv & Hl & Hs).
          exists w1, [{| inv_args := EventArgs ref;
                        inv_view := view
                          (if LibUVSourceExit.isOneShot event
                           then call (ref, setEnabled false) w else w) |}].
          split; [done|]. split; [done|]. split; [done|].
          constructor; [|constructor]. exists ref. split; [done|].
          split; [apply Hw0; by rewrite Hget|].
          cbn [inv_view]. rewrite Hs.
          destruct (LibUVSourceExit.isOneShot event); [by right|by left].
        + exists w, []. rewrite Hvis. split; [done|].
          split; [by rewrite app_nil_r|].
          split; [apply sublist_nil_l|constructor].
      - exists w, []. rewrite Hvis. split; [done|].
        split; [by rewrite app_nil_r|].
        split; [apply sublist_nil_l|constructor]. }
    destruct (exec_visit_frame ref w w1 Hv) as [_ Hg1].
    assert (∀ r, is_Some (get_exit r w1) → is_Some (get_exit r w0)) as Hw1
      by (intros r Hr; by apply Hw0, Hg1).
    destruct Hf1 as [Hsub1 Hall1].
    destruct (exec_visit ref w) as [[] w1'|how w1'|w1'|] eqn:Hv'; try done;
      simpl in Hv; injection Hv as ->.
    + assert (∃ fired, log w' = log w1 ++ fired ∧
                fired_as_specified w0 rest fired) as (fired & Hl & Hsub & Hall).
      { destruct (isValid_exit ref w1).
        - by apply (IH (kept ++ [ref]) w1).
        - destruct (IH kept (set_exitEvents_ (kept ++ rest) w1))
            as (fired & Hl & Hf); [done|done|]. by exists fired. }
      exists (fired1 ++ fired). split; [by rewrite Hl, Hl1, app_assoc|].
      split; [|by apply Forall_app].
      rewrite fmap_app. change (EventArgs <$> ref :: rest)
        with ((EventArgs <$> [ref]) ++ (EventArgs <$> rest)).
      by apply sublist_app.
    + simpl in Hfin. injection Hfin as <-. exists fired1.
      split; [done|]. split; [|done].
      change (EventArgs <$> ref :: rest)
        with ((EventArgs <$> [ref]) ++ (EventArgs <$> rest)).
      by apply sublist_inserts_r.
    + simpl in Hfin. injection Hfin as <-. exists fired1.
      split; [done|]. split; [|done].
      change (EventArgs <$> ref :: rest)
        with ((EventArgs <$> [ref]) ++ (EventArgs <$> rest)).
      by apply sublist_inserts_r.
Qed.

(** The entries a completed walk leaves in the list are entries it started
    with, in their order. *)
Lemma exit_walk_kept kept rest w w' :
  exitEvents_ w = kept ++ rest →
  exit_walk kept rest w = Normal () w' →
  ∃ kept', exitEvents_ w' = kept ++ kept' ∧ sublist kept' rest.
Proof.
  revert kept w. induction rest as [|ref rest IH]; intros kept w He Hwalk.
  - simpl in Hwalk. injection Hwalk as <-. exists []. by split.
  - simpl in Hwalk.
    destruct (exec_visit ref w) as [[] w1|how w1|w1|] eqn:Hv; try done.
    destruct (exec_visit_frame ref w w1) as [He1 _]; [by rewrite Hv|].
    destruct (isValid_exit ref w1).
    + destruct (IH (kept ++ [ref]) w1) as (kept' & Hk & Hs); [|done|].
      { by rewrite He1, He, <- app_assoc. }
      exists (ref :: kept'). rewrite Hk, <- app_assoc. split; [done|].
      by apply sublist_skip.
    + destruct (IH kept (set_exitEvents_ (kept ++ rest) w1))
        as (kept' & Hk & Hs); [done|done|].
      exists kept'. split; [done|]. by apply sublist_cons.
Qed.

(** C1. After the blocking wait the loop of [exec] visits the entries of
    the exit list once each, in registration order (the iterator loop with
    [erase] is [exit_walk], and never runs out of iterations).  A visit
    invokes the callback iff the reference resolves and the source is not
    Disabled, with the source as the only argument and a OneShot source
    already Disabled; after the visit the entry is kept iff the reference is
    still valid.  All invocations concern sources that were alive when the
    walk began, in the order of their entries, and the entries left in the
    list are entries it held before, in their order. *)
Theorem exit_walk_once :
  (∀ uv_run w0,
     let w := (uv_run w0).2 in
     exec uv_run w0 =
     Some (returning (0 <=? (uv_run w0).1) (exit_walk [] (exitEvents_ w) w))) ∧
  (∀ ref w, visit_as_specified ref w) ∧
  (∀ w w', final_world (exit_walk [] (exitEvents_ w) w) = Some w' →
     ∃ fired, log w' = log w ++ fired ∧
       fired_as_specified w (exitEvents_ w) fired) ∧
  (∀ w w', exit_walk [] (exitEvents_ w) w = Normal () w' →
     sublist (exitEvents_ w') (exitEvents_ w)).
Proof.
  split; [|split; [|split]].
  - intros uv_run w0 w. unfold exec. subst w.
    destruct (uv_run w0) as [r w]. simpl.
    pose proof (exec_loop_exit_walk (length (exitEvents_ w)) []
                  (exitEvents_ w) w eq_refl (le_n _)) as Hloop.
    simpl in Hloop. rewrite Hloop.
    by destruct (exit_walk _ _ _).
  - apply visit_meets_specification.
  - intros w w' Hfin. by apply (exit_walk_fired w [] (exitEvents_ w) w w').
  - intros w w' Hwalk.
    destruct (exit_walk_kept [] (exitEvents_ w) w w' eq_refl Hwalk)
      as (kept' & -> & Hs). done.
Qed.
End ExitFacts.

(** ** Callbacks that throw *)

Section ThrowFacts.
Context {FB : FlagBits}.

(** C9, as the code has it.  When the callback of an IO, timer or exit
    dispatch throws an exception derived from std::exception, the handler
    ends the process (a fatal log on the IO path, abort() on the other
    two), right after that one invocation; the exit walk visits no further
    entry.  The handlers catch nothing else: any other thrown object leaves
    the dispatcher uncaught.  In neither case does the dispatcher return
    normally. *)
Theorem std_exception_terminates :
  (∀ handle status events w source o,
     handle_data handle w = Some source →
     heap w !! source = Some (IOSource o) →
     let entry := if isOneShot o then call (source, setEnabled false) w else w in
     let flags := triggered_flags status events in
     let inv := {| inv_args := IOArgs source (LibUVSourceIO.fd_ o) flags;
                   inv_view := view entry |} in
     let thrown :=
       (LibUVSourceIO.callback_ o (view entry) source
          (LibUVSourceIO.fd_ o) flags).2 in
     ∃ w', log w' = log w ++ [inv] ∧
       (thrown = ThrowsStdException →
          IOEventCallback handle status events w = Terminated FCITX_FATAL w') ∧
       (thrown = ThrowsOther →
          IOEventCallback handle status events w = Unwinding w')) ∧
  (∀ handle w source o,
     handle_data handle w = Some source →
     heap w !! source = Some (TimeSource o) →
     let entry := if isOneShot o then call (source, setEnabled false) w else w in
     let inv := {| inv_args := TimeArgs source (LibUVSourceTime.time_ o);
                   inv_view := view entry |} in
     let thrown :=
       (LibUVSourceTime.callback_ o (view entry) source
          (LibUVSourceTime.time_ o)).2 in
     ∃ w', log w' = log w ++ [inv] ∧
       (thrown = ThrowsStdException →
          TimeEventCallback handle w = Terminated std_abort w') ∧
       (thrown = ThrowsOther → TimeEventCallback handle w = Unwinding w')) ∧
  (∀ ref w event,
     get_exit ref w = Some event →
     LibUVSourceExit.isEnabled event = true →
     let entry :=
       if LibUVSourceExit.isOneShot event
       then call (ref, setEnabled false) w else w in
     let inv := {| inv_args := EventArgs ref; inv_view := view entry |} in
     let thrown := (LibUVSourceExit.callback_ event (view entry) ref).2 in
     ∃ w', log w' = log w ++ [inv] ∧
       (thrown = ThrowsStdException →
          exec_visit ref w = Terminated std_abort w' ∧
          ∀ fuel iter, exitEvents_ w !! iter = Some ref →
            exec_loop (S fuel) iter w = Some (Terminated std_abort w')) ∧
       (thrown = ThrowsOther →
          exec_visit ref w = Unwinding w' ∧
          ∀ fuel iter, exitEvents_ w !! iter = Some ref →
            exec_loop (S fuel) iter w = Some (Unwinding w'))).
Proof.
  split; [|split].
  - intros handle status events w source o Hd Hheap entry flags inv thrown.
    rewrite (IOEventCallback_spec _ _ _ _ _ _ Hd Hheap).
    fold entry. fold flags. set (r := invoke _ _ entry).
    assert (log entry = log w) as Hlog.
    { unfold entry. destruct (isOneShot o); [by rewrite log_call|done]. }
    exists r.1. split; [unfold r; by rewrite log_invoke, Hlog|].
    assert (r.2 = thrown) as -> by (unfold r; by rewrite invoke_spec).
    split; by intros ->.
  - intros handle w source o Hd Hheap entry inv thrown.
    rewrite (TimeEventCallback_spec _ _ _ _ Hd Hheap).
    fold entry. set (r := invoke _ _ entry).
    assert (log entry = log w) as Hlog.
    { unfold entry. destruct (isOneShot o); [by rewrite log_call|done]. }
    exists r.1. split; [unfold r; by rewrite log_invoke, Hlog|].
    assert (r.2 = thrown) as -> by (unfold r; by rewrite invoke_spec).
    split; by intros ->.
  - intros ref w event Hget Hen entry inv thrown.
    set (r := invoke (EventArgs ref)
                (λ v, LibUVSourceExit.callback_ event v ref) entry).
    assert (log entry = log w) as Hlog.
    { unfold entry.
      destruct (LibUVSourceExit.isOneShot event); [by rewrite log_call|done]. }
    exists r.1. split; [unfold r; by rewrite log_invoke, Hlog|].
    assert (r.2 = thrown) as Hr by (unfold r; by rewrite invoke_spec).
    assert (exec_visit ref w =
            match thrown with
            | Returns _ => Normal () r.1
            | ThrowsStdException => Terminated std_abort r.1
            | ThrowsOther => Unwinding r.1
            end) as Hv.
    { rewrite exec_visit_spec, Hget, Hen. cbv zeta. fold entry. fold r.
      by rewrite Hr. }
    split; intros Ht; rewrite Ht in Hv; (split; [done|]);
      intros fuel iter Hiter; simpl; by rewrite Hiter, Hv.
Qed.
End ThrowFacts.

Section ThrowScenario.
#[local] Existing Instance header_bits.

(** A callback may throw anything: here an exit callback throws an object
    that is no std::exception.  Nothing in [exec] catches it; the exception
    reaches the caller of [exec] and the process is not ended. *)
Lemma other_exception_leaves_exec :
  let w := (addExitEvent (λ _ _, ([], ThrowsOther))
              (new_EventLoop (λ _ _, 0))).2 in
  ∃ w', exec (λ w, (0, w)) w = Some (Unwinding w') ∧
    (inv_args <$> log w') = [EventArgs 0%nat] ∧
    ∀ how w'', exec (λ w, (0, w)) w ≠ Some (Terminated how w'').
Proof.
  intros w. eexists. split; [by vm_compute|]. split; [by vm_compute|].
  intros how w'' H. vm_compute in H. discriminate H.
Qed.

Lemma std_exception_terminates_witness :
  let w := (addExitEvent (λ _ _, ([], ThrowsStdException))
              (new_EventLoop (λ _ _, 0))).2 in
  ∃ w', exec (λ w, (0, w)) w = Some (Terminated std_abort w') ∧
    (inv_args <$> log w') = [EventArgs 0%nat].
Proof.
  intros w.
  destruct (proj2 (proj2 std_exception_terminates) 0%nat w
              (LibUVSourceExit.new (λ _ _, ([], ThrowsStdException)))
              eq_refl eq_refl) as (w' & Hlog & Hstd & _).
  destruct (Hstd eq_refl) as [_ Hloop].
  exists w'. split.
  - unfold exec. cbn [fst snd]. change (length (exitEvents_ w)) with 1%nat.
    by rewrite (Hloop 0%nat 0%nat eq_refl).
  - rewrite Hlog. by vm_compute.
Defined.
End ThrowScenario.

(** ** Deferred events *)

Section DeferFacts.
Context {FB : FlagBits}.

(** C6, as the code has it.  [addDeferEvent(cb)] is [addTimeEvent] on the
    monotonic clock with deadline 0 and accuracy 0 and a callback that only
    drops the time argument.  The source is a OneShot timer whose stored
    deadline is 0; [cb] is not invoked by the registration; on a live loop
    the timer is armed with timeout 0, so it fires on the next turn of the
    loop. *)
Theorem addDeferEvent_is_timer (callback : EventCallback) (w : World) :
  let r := addDeferEvent callback w in
  r = addTimeEvent CLOCK_MONOTONIC 0 0 (defer_wrap callback) w ∧
  (∀ v source usec, defer_wrap callback v source usec = callback v source) ∧
  log r.2 = log w ∧
  ∃ o, heap r.2 !! r.1 = Some (TimeSource o) ∧
    LibUVSourceTime.time o = 0 ∧
    LibUVSourceTime.clock o = CLOCK_MONOTONIC ∧
    LibUVSourceTime.accuracy o = 0 ∧
    state_ (base o) = Oneshot ∧
    LibUVSourceTime.callback_ o = defer_wrap callback ∧
    (is_Some (uvloop (sys w)) →
       ∃ h, handle_ (base o) = Some h ∧
         handles_of r.2 !! h =
           Some {| data := Some r.1; closing := false;
                   registration := uv_timer 0 0 |}).
Proof.
  intros r. split; [done|]. split; [done|].
  unfold r, addDeferEvent, addTimeEvent, LibUVSourceTime.new,
    LibUVSource_setOneShot, setState.
  set (o0 := {| LibUVSourceTime.base_ := {| handle_ := None; state_ := Disabled |};
                LibUVSourceTime.time_ := 0;
                LibUVSourceTime.clock_ := CLOCK_MONOTONIC;
                LibUVSourceTime.accuracy_ := 0;
                LibUVSourceTime.callback_ := defer_wrap callback |}).
  destruct (decide (state_ (base o0) ≠ Oneshot)) as [_|Hn]; [|by destruct Hn].
  pose proof (resetEvent_fst (next_ptr w) (set_state_ Oneshot o0) (sys w))
    as [h0 Hfst].
  pose proof (resetEvent_rebuilds (next_ptr w) (set_state_ Oneshot o0) (sys w))
    as Hreb.
  destruct (resetEvent (next_ptr w) (set_state_ Oneshot o0) (sys w))
    as [o s] eqn:Hr.
  simpl in Hfst. subst o. cbn [fst snd heap log sys].
  split; [done|]. eexists. split; [by rewrite lookup_insert_eq|].
  do 5 (split; [done|]).
  intros [l Hl]. destruct (Hreb l Hl) as (h & l' & H1 & _ & H3 & H4); [done|].
  exists h. split; [done|]. unfold handles_of. cbn [sys].
  simpl in H3. rewrite H3. rewrite H4.
  rewrite setup_after_cleanup. simpl setup.
  rewrite timer_setup_timeout by (simpl; unfold is_uint64; lia).
  simpl LibUVSourceTime.time_. simpl LibUVSourceTime.clock_.
  pose proof (now_range CLOCK_MONOTONIC (sys w)) as Hn. unfold is_uint64 in Hn.
  do 3 f_equal. apply Z.div_small. lia.
Qed.
End DeferFacts.

Section DeferScenario.
#[local] Existing Instance header_bits.

(** With the monotonic clock at 5 s, the deadline [addDeferEvent] stores is
    0, not the time of registration, and the source it creates is not the
    one the specification's composition creates. *)
Lemma addDeferEvent_deadline_is_not_now :
  let callback : EventCallback := λ _ _, ([], Returns true) in
  let w := new_EventLoop (λ _ _, 5000000) in
  let r := addDeferEvent callback w in
  (now CLOCK_MONOTONIC (sys w)).1 = 5000000 ∧
  (observe <$> heap r.2 !! r.1) =
    Some (TimeView Oneshot 0 0 CLOCK_MONOTONIC) ∧
  (observe <$> heap (addDeferEvent_as_specified callback w).2 !! r.1) =
    Some (TimeView Oneshot 5000000 0 CLOCK_MONOTONIC) ∧
  r ≠ addDeferEvent_as_specified callback w.
Proof.
  intros callback w r.
  assert ((observe <$> heap r.2 !! r.1) =
          Some (TimeView Oneshot 0 0 CLOCK_MONOTONIC)) as H1 by (by vm_compute).
  assert ((observe <$> heap (addDeferEvent_as_specified callback w).2 !! r.1) =
          Some (TimeView Oneshot 5000000 0 CLOCK_MONOTONIC)) as H2
    by (by vm_compute).
  split; [by vm_compute|]. split; [done|]. split; [done|].
  intros Heq. rewrite <- Heq, H1 in H2. discriminate H2.
Qed.

Lemma addDeferEvent_is_timer_witness :
  let callback : EventCallback := λ _ _, ([], Returns true) in
  let w := new_EventLoop (λ _ _, 5000000) in
  let r := addDeferEvent callback w in
  is_Some (uvloop (sys w)) ∧
  ∃ o h, heap r.2 !! r.1 = Some (TimeSource o) ∧
    handle_ (base o) = Some h ∧
    registration <$> handles_of r.2 !! h = Some (uv_timer 0 0).
Proof.
  intros callback w r.
  assert (is_Some (uvloop (sys w))) as Hl by (by eexists).
  split; [exact Hl|].
  destruct (addDeferEvent_is_timer callback w)
    as (_ & _ & _ & o & Ho & _ & _ & _ & _ & _ & Harm).
  destruct (Harm Hl) as (h & Hh & Hreg).
  exists o, h. split; [exact Ho|]. split; [exact Hh|].
  fold r in Hreg. by rewrite Hreg.
Defined.
End DeferScenario.

(** ** revents *)

Section ReventsFacts.
Context {FB : FlagBits}.

(** No method assigns [revents_]. *)
Lemma revents_method this m (o o' : LibUVSourceIO.t) s :
  (method this m (IOSource o) s).1 = Some (IOSource o') →
  LibUVSourceIO.revents o' = LibUVSourceIO.revents o.
Proof.
  assert (∀ t : LibUVSourceIO.t,
            LibUVSourceIO.revents (resetEvent this t s).1 =
            LibUVSourceIO.revents t) as Hreset.
  { intros t. destruct (resetEvent_fst this t s) as [h ->]. by destruct t. }
  destruct m; simpl; try (by intros [= <-]).
  - unfold LibUVSource_setEnabled, setState. destruct (decide _).
    + specialize (Hreset (set_state_ (if enabled then Enabled else Disabled) o)).
      destruct (resetEvent _ _ _). simpl in *. intros [= <-].
      rewrite Hreset. by destruct o.
    + by intros [= <-].
  - unfold LibUVSource_setOneShot, setState. destruct (decide _).
    + specialize (Hreset (set_state_ Oneshot o)).
      destruct (resetEvent _ _ _). simpl in *. intros [= <-].
      rewrite Hreset. by destruct o.
    + by intros [= <-].
  - unfold LibUVSourceIO.setFd. destruct (decide _).
    + specialize (Hreset (LibUVSourceIO.with_fd fd o)).
      destruct (resetEvent _ _ _). simpl in *. intros [= <-].
      rewrite Hreset. by destruct o.
    + by intros [= <-].
  - unfold LibUVSourceIO.setEvents. destruct (decide _).
    + specialize (Hreset (LibUVSourceIO.with_flags flags o)).
      destruct (resetEvent _ _ _). simpl in *. intros [= <-].
      rewrite Hreset. by destruct o.
    + by intros [= <-].
  - by destruct (cleanup o s).
Qed.

Lemma revents_call c w this v :
  revents_at this (call c w) = Some v → revents_at this w = Some v.
Proof.
  destruct c as [that m]. unfold call.
  destruct (heap w !! that) as [o|] eqn:Hheap; [|done].
  pose proof (method_keeps_class that m o (sys w)) as Hk.
  pose proof (revents_method that m) as Hrev.
  destruct (method that m o (sys w)) as [o' s'] eqn:Hm. simpl in Hk.
  unfold revents_at. rewrite heap_set_heap.
  destruct (decide (this = that)) as [->|Hne].
  - rewrite Hheap. destruct o' as [o'|].
    + rewrite lookup_insert_eq. specialize (Hk o' eq_refl).
      destruct o as [o| |], o'  as [o'| |]; try done.
      specialize (Hrev o o' (sys w)). rewrite Hm in Hrev.
      intros [= <-]. f_equal. symmetry. by apply Hrev.
    + by rewrite lookup_delete_eq.
  - destruct o' as [o'|].
    + by rewrite lookup_insert_ne.
    + by rewrite lookup_delete_ne.
Qed.

Lemma revents_run_calls calls w this v :
  revents_at this (run_calls calls w) = Some v → revents_at this w = Some v.
Proof.
  revert w. induction calls as [|c calls IH]; intros w; [done|].
  simpl. intros H. by apply (revents_call c), IH.
Qed.

(** A dispatch never records what the backend reported: whatever the
    status and the events, [revents()] afterwards is what it was before. *)
Lemma revents_after_dispatch handle status events w w' this v :
  final_world (IOEventCallback handle status events w) = Some w' →
  revents_at this w' = Some v → revents_at this w = Some v.
Proof.
  unfold IOEventCallback.
  destruct (handle_data handle w) as [source|]; [|done].
  destruct (heap w !! source) as [[o| |]|] eqn:Hheap; try done.
  rewrite triggered_flags_spec.
  set (entry := if isOneShot o then _ else _).
  rewrite invoke_spec. cbv zeta.
  set (after := run_calls _ _). intros Hfin Hrev.
  assert (w' = after) as ->.
  { by destruct (LibUVSourceIO.callback_ _ _ _ _ _).2; simplify_eq/=. }
  apply revents_run_calls in Hrev.
  change (revents_at this entry = Some v) in Hrev.
  unfold entry in Hrev. destruct (isOneShot o); [|done].
  by apply revents_call in Hrev.
Qed.
End ReventsFacts.

Section Scenario.
#[local] Existing Instance header_bits.

(** C7 fails on the code.  libuv reports UV_READABLE for the source of
    [io_world]; the callback receives In, and [revents()] afterwards is
    still the empty set it was constructed with. *)
Theorem revents_not_recorded :
  ∃ w', IOEventCallback 0%nat 0 UV_READABLE io_world = Normal () w' ∧
    (inv_args <$> log w') = [IOArgs 0%nat 3 IOEventFlag.In] ∧
    revents_at 0%nat w' = Some IOEventFlags_empty ∧
    IOEventFlag.In ≠ IOEventFlags_empty.
Proof.
  eexists. split; [by vm_compute|]. split; [by vm_compute|].
  split; [by vm_compute|]. by vm_compute.
Qed.


Lemma Time_dispatch_witness :
  let w := (addTimeEvent CLOCK_MONOTONIC 5002500 0
              (λ _ _ _, ([(0%nat, setOneShot)], Returns true))
              (new_EventLoop (λ _ _, 5000000))).2 in
  handle_data 0%nat w = Some 0%nat ∧
  ∃ o w', heap w !! 0%nat = Some (TimeSource o) ∧
    TimeEventCallback 0%nat w = Normal () w' ∧
    source_ok 0%nat w' = true ∧
    (observe <$> heap w' !! 0%nat) =
      Some (TimeView Oneshot 5002500 0 CLOCK_MONOTONIC).
Proof.
  intros w.
  assert (handle_data 0%nat w = Some 0%nat) as Hd by (by vm_compute).
  split; [exact Hd|].
  destruct (heap w !! 0%nat) as [[|o|]|] eqn:Hheap;
    try (by vm_compute in Hheap).
  destruct (Time_dispatch 0%nat w 0%nat o Hd Hheap) as (_ & _ & Hret).
  assert (o = {| LibUVSourceTime.base_ :=
                   {| handle_ := Some 0%nat; state_ := Oneshot |};
                 LibUVSourceTime.time_ := 5002500;
                 LibUVSourceTime.clock_ := CLOCK_MONOTONIC;
                 LibUVSourceTime.accuracy_ := 0;
                 LibUVSourceTime.callback_ :=
                   λ _ _ _, ([(0%nat, setOneShot)], Returns true) |}) as Ho.
  { vm_compute in Hheap. by injection Hheap as <-. }
  specialize (Hret true). rewrite Ho in Hret. specialize (Hret eq_refl).
  rewrite <- Ho in Hret.
  destruct (get_time 0%nat _) as [o'|] eqn:Hget in Hret;
    [|rewrite Ho in Hget; by vm_compute in Hget].
  destruct (decide (state_ (base o') ≠ Disabled)) as [He|He].
  - destruct Hret as [Hrun Hok].
    destruct Hok as [Hs _]; [rewrite Ho; vm_compute; by eexists|].
    eexists o, _. split; [done|]. split; [exact Hrun|]. split; [exact Hs|].
    rewrite Ho in Hget. vm_compute in Hget. injection Hget as <-.
    rewrite Ho. by vm_compute.
  - exfalso. apply He. rewrite Ho in Hget. vm_compute in Hget.
    by injection Hget as <-.
Defined.

Lemma exit_walk_once_witness :
  let quiet : EventCallback := λ _ _, ([], Returns true) in
  let w0 := new_EventLoop (λ _ _, 0) in
  let w1 := (addExitEvent quiet w0).2 in
  let w2 := (addExitEvent
               (λ _ _, ([(1%nat, destroy); (2%nat, destroy)], Returns true))
               w1).2 in
  let w3 := (addExitEvent quiet w2).2 in
  let w := call (0%nat, setEnabled true) w3 in
  ∃ w' fired,
    exec (λ w, (0, w)) w = Some (Normal true w') ∧
    exitEvents_ w = [0; 1; 2]%nat ∧ exitEvents_ w' = [0%nat] ∧
    log w' = log w ++ fired ∧
    (inv_args <$> fired) = [EventArgs 0%nat; EventArgs 1%nat] ∧
    fired_as_specified w (exitEvents_ w) fired.
Proof.
  intros quiet w0 w1 w2 w3 w.
  destruct (exit_walk [] (exitEvents_ w) w) as [[] w'| | |] eqn:Hwalk;
    try (by vm_compute in Hwalk).
  destruct (proj1 (proj2 (proj2 exit_walk_once)) w w')
    as (fired & Hlog & Hfired);
    [by rewrite Hwalk|].
  exists w', fired.
  split; [rewrite (proj1 exit_walk_once); cbn [fst snd]; by rewrite Hwalk|].
  split; [by vm_compute|].
  assert (log w' = [{| inv_args := EventArgs 0%nat;
                       inv_view := view w |};
                    {| inv_args := EventArgs 1%nat;
                       inv_view :=
                         view (set_log [{| inv_args := EventArgs 0%nat;
                                           inv_view := view w |}]
                                 (call (1%nat, setEnabled false) w)) |}]
          ∧ exitEvents_ w' = [0%nat]) as [Hl He].
  { vm_compute in Hwalk. injection Hwalk as <-. by vm_compute. }
  split; [exact He|]. split; [exact Hlog|]. split; [|exact Hfired].
  rewrite Hl in Hlog. change (log w) with (@nil Invocation) in Hlog.
  simpl in Hlog. by rewrite <- Hlog.
Defined.
End Scenario.

(** * Further properties *)

(** ** More on the flag conversion *)

Section FlagMore.
Context {FB : FlagBits}.

Lemma testbit_uv_poll_mask (n : Z) :
  Z.testbit uv_poll_mask n =
  (Z.of_N READABLE_bit =? n) || (Z.of_N WRITABLE_bit =? n)
  || (Z.of_N DISCONNECT_bit =? n).
Proof.
  unfold uv_poll_mask, UV_READABLE, UV_WRITABLE, UV_DISCONNECT.
  rewrite !Z.lor_spec, !testbit_flag_of_bit. reflexivity.
Qed.


(** X1. Back from libuv and forth again: what libuv reports beyond READABLE,
    WRITABLE and DISCONNECT is dropped, the rest comes back unchanged. *)
Theorem libuv_roundtrip (u : Z) :
  IOEventFlagsToLibUVFlags (LibUVFlagsToIOEventFlags u) =
  Z.land u uv_poll_mask.
Proof.
  destruct uv_poll_event_bits_differ as (Hrw & Hrd & Hwd).
  destruct IOEventFlag_bits_differ as (Hio & _ & Hih & _ & Hoh & _).
  apply Z.bits_inj'. intros n _.
  rewrite testbit_IOEventFlagsToLibUVFlags,
    !testbit_LibUVFlagsToIOEventFlags, Z.land_spec, testbit_uv_poll_mask,
    !Z.eqb_refl.
  rewrite (eqb_of_N_ne Out_bit In_bit), (eqb_of_N_ne Hup_bit In_bit),
    (eqb_of_N_ne In_bit Out_bit), (eqb_of_N_ne Hup_bit Out_bit),
    (eqb_of_N_ne In_bit Hup_bit), (eqb_of_N_ne Out_bit Hup_bit) by done.
  rewrite !andb_true_r, !andb_false_r, !orb_false_r. simpl.
  destruct (Z.eqb_spec (Z.of_N READABLE_bit) n) as [Hi|Hi];
    destruct (Z.eqb_spec (Z.of_N WRITABLE_bit) n) as [Ho|Ho];
    destruct (Z.eqb_spec (Z.of_N DISCONNECT_bit) n) as [Hh|Hh];
    try (exfalso; lia); try subst n;
    rewrite ?andb_true_r, ?andb_false_r, ?orb_false_r; reflexivity.
Qed.

(** X2. Both conversions turn the union of two flag sets into the union of
    their conversions, and the empty set into the empty set. *)
Theorem conversions_preserve_union (a b : Z) :
  IOEventFlagsToLibUVFlags (Z.lor a b) =
    Z.lor (IOEventFlagsToLibUVFlags a) (IOEventFlagsToLibUVFlags b) ∧
  LibUVFlagsToIOEventFlags (Z.lor a b) =
    Z.lor (LibUVFlagsToIOEventFlags a) (LibUVFlagsToIOEventFlags b) ∧
  IOEventFlagsToLibUVFlags IOEventFlags_empty = 0 ∧
  LibUVFlagsToIOEventFlags 0 = IOEventFlags_empty.
Proof.
  split; [|split; [|split]].
  - apply Z.bits_inj'. intros n _.
    rewrite Z.lor_spec, !testbit_IOEventFlagsToLibUVFlags, !Z.lor_spec.
    destruct (Z.testbit a _), (Z.testbit a _), (Z.testbit a _),
      (Z.testbit b _), (Z.testbit b _), (Z.testbit b _),
      (_ =? n), (_ =? n), (_ =? n); reflexivity.
  - apply Z.bits_inj'. intros n _.
    rewrite Z.lor_spec, !testbit_LibUVFlagsToIOEventFlags, !Z.lor_spec.
    destruct (Z.testbit a _), (Z.testbit a _), (Z.testbit a _),
      (Z.testbit b _), (Z.testbit b _), (Z.testbit b _),
      (_ =? n), (_ =? n), (_ =? n); reflexivity.
  - apply Z.bits_inj'. intros n _.
    rewrite testbit_IOEventFlagsToLibUVFlags. unfold IOEventFlags_empty.
    by rewrite !Z.bits_0.
  - apply Z.bits_inj'. intros n _.
    rewrite testbit_LibUVFlagsToIOEventFlags. unfold IOEventFlags_empty.
    by rewrite !Z.bits_0.
Qed.


(** The conversion looks at In, Out and Hup only and gives nothing but
    READABLE, WRITABLE and DISCONNECT. *)
Lemma to_libuv_depends_on_In_Out_Hup (f : Z) :
  IOEventFlagsToLibUVFlags f =
    IOEventFlagsToLibUVFlags (Z.land f requestable_mask) ∧
  Z.land (IOEventFlagsToLibUVFlags f) uv_poll_mask =
    IOEventFlagsToLibUVFlags f ∧
  (IOEventFlagsToLibUVFlags f = 0 ↔ Z.land f requestable_mask = 0).
Proof.
  destruct uv_poll_event_bits_differ as (Hrw & Hrd & Hwd).
  destruct IOEventFlag_bits_differ as (Hio & _ & Hih & _ & Hoh & _).
  assert (∀ g n, Z.testbit (Z.land g requestable_mask) n =
                 Z.testbit g n && ((Z.of_N In_bit =? n) || (Z.of_N Out_bit =? n)
                                   || (Z.of_N Hup_bit =? n))) as Hmask
    by (intros; by rewrite Z.land_spec, testbit_requestable_mask).
  split; [|split; [|split]].
  - apply Z.bits_inj'. intros n _.
    rewrite !testbit_IOEventFlagsToLibUVFlags, !Hmask, !Z.eqb_refl.
    rewrite (eqb_of_N_ne Out_bit In_bit), (eqb_of_N_ne Hup_bit In_bit),
      (eqb_of_N_ne In_bit Out_bit), (eqb_of_N_ne Hup_bit Out_bit),
      (eqb_of_N_ne In_bit Hup_bit), (eqb_of_N_ne Out_bit Hup_bit) by done.
    cbn [orb]. by rewrite !andb_true_r.
  - apply Z.bits_inj'. intros n _.
    rewrite Z.land_spec, testbit_uv_poll_mask,
      testbit_IOEventFlagsToLibUVFlags.
    destruct (Z.testbit f _), (Z.testbit f _), (Z.testbit f _),
      (_ =? n), (_ =? n), (_ =? n); reflexivity.
  - intros H0.
    pose proof (testbit_to_libuv f) as (Hr & Hw & Hd).
    rewrite H0, Z.bits_0 in Hr, Hw, Hd.
    apply Z.bits_inj'. intros n _. rewrite Hmask, Z.bits_0.
    destruct (Z.eqb_spec (Z.of_N In_bit) n) as [<-|]; [by rewrite <- Hr|].
    destruct (Z.eqb_spec (Z.of_N Out_bit) n) as [<-|]; [by rewrite <- Hw|].
    destruct (Z.eqb_spec (Z.of_N Hup_bit) n) as [<-|]; [by rewrite <- Hd|].
    apply andb_false_r.
  - intros H0.
    assert (∀ b, b = In_bit ∨ b = Out_bit ∨ b = Hup_bit →
              Z.testbit f (Z.of_N b) = false) as Hb.
    { intros b Hb.
      pose proof (Hmask f (Z.of_N b)) as Hm. rewrite H0, Z.bits_0 in Hm.
      destruct (Z.testbit f (Z.of_N b)); [|done].
      destruct Hb as [-> | [-> | ->]]; rewrite Z.eqb_refl in Hm;
        by rewrite ?orb_true_r in Hm. }
    apply Z.bits_inj'. intros n _.
    rewrite testbit_IOEventFlagsToLibUVFlags, Z.bits_0.
    by rewrite !Hb by tauto.
Qed.

(** X3. What an IO source requests from libuv, in [setup] and so in the
    handle [init] puts into the loop, is a poll on its file descriptor for
    a set of events that has READABLE iff the flags have In, WRITABLE iff
    Out, DISCONNECT iff Hup, and nothing else: Err and any other bit of
    the flags are ignored.  The set is empty exactly when the flags have
    none of In, Out, Hup, and two sources on the same file descriptor
    whose flags agree on In, Out and Hup request the same. *)
Theorem request_depends_on_In_Out_Hup (this : ptr) (loop : UVLoop)
    (o : LibUVSourceIO.t) (s : Sys) :
  ∃ events,
    (LibUVSourceIO.setup o s).1 = uv_poll (LibUVSourceIO.fd_ o) events ∧
    uvloop (init this loop o s).2 =
      Some {| handles :=
        <[calloc loop :=
            {| data := Some this; closing := false;
               registration := uv_poll (LibUVSourceIO.fd_ o) events |}]>
          (handles loop) |} ∧
    Z.testbit events (Z.of_N READABLE_bit) =
      Z.testbit (LibUVSourceIO.flags_ o) (Z.of_N In_bit) ∧
    Z.testbit events (Z.of_N WRITABLE_bit) =
      Z.testbit (LibUVSourceIO.flags_ o) (Z.of_N Out_bit) ∧
    Z.testbit events (Z.of_N DISCONNECT_bit) =
      Z.testbit (LibUVSourceIO.flags_ o) (Z.of_N Hup_bit) ∧
    Z.land events uv_poll_mask = events ∧
    (events = 0 ↔ Z.land (LibUVSourceIO.flags_ o) requestable_mask = 0) ∧
    ∀ o', LibUVSourceIO.fd_ o' = LibUVSourceIO.fd_ o →
      Z.land (LibUVSourceIO.flags_ o') requestable_mask =
        Z.land (LibUVSourceIO.flags_ o) requestable_mask →
      (LibUVSourceIO.setup o' s).1 = (LibUVSourceIO.setup o s).1.
Proof.
  exists (IOEventFlagsToLibUVFlags (LibUVSourceIO.flags_ o)).
  destruct (to_libuv_depends_on_In_Out_Hup (LibUVSourceIO.flags_ o))
    as (Hdep & Hin & Hzero).
  destruct (testbit_to_libuv (LibUVSourceIO.flags_ o)) as (Hr & Hw & Hd).
  split; [done|]. split; [by rewrite init_spec|].
  split; [done|]. split; [done|]. split; [done|]. split; [done|].
  split; [done|].
  intros o' Hfd Hfl. unfold LibUVSourceIO.setup. cbn [fst].
  rewrite Hfd. f_equal.
  rewrite (proj1 (to_libuv_depends_on_In_Out_Hup (LibUVSourceIO.flags_ o'))).
  by rewrite Hfl, <- Hdep.
Qed.
End FlagMore.

(** ** The type names of options *)

Module OptionTypeNameFacts.
Import OptionTypeName.

Lemma append_List_inj (s1 s2 : string) :
  String.append "List|" s1 = String.append "List|" s2 → s1 = s2.
Proof. cbv [String.append]. by intros [= ->]. Qed.

Lemma append_List_assoc (p s : string) :
  String.append (String.append "List|" p) s =
  String.append "List|" (String.append p s).
Proof. reflexivity. Qed.

Lemma plain_has_name (T : CType) : plain T = true → is_Some (get T).
Proof.
  induction T; simpl; try done; try by eexists.
  intros H. destruct (IHT H) as [s ->]. by eexists.
Qed.

(** X4. Two types built from bool, int, std::string, Key and Color with
    std::vector have the same type name only if they are the same type. *)
Theorem type_name_injective (T1 T2 : CType) :
  plain T1 = true → plain T2 = true → get T1 = get T2 → T1 = T2.
Proof.
  revert T2. induction T1; intros T2 H1 H2 Heq; simpl in H1; try done.
  1-5: destruct T2; simpl in H2; try done; cbn [get configTypeNameHelper] in Heq;
       try discriminate Heq;
       destruct (plain_has_name _ H2) as [s Hs]; rewrite Hs in Heq;
       cbv [fmap option_fmap option_map String.append] in Heq;
       discriminate Heq.
  destruct (plain_has_name _ H1) as [s Hs].
  destruct T2; simpl in H2; try done; cbn [get configTypeNameHelper] in Heq;
    rewrite Hs in Heq;
    try (cbv [fmap option_fmap option_map String.append] in Heq;
         discriminate Heq).
  destruct (plain_has_name _ H2) as [s2 Hs2]. rewrite Hs2 in Heq.
  cbn [fmap option_fmap option_map] in Heq. apply (inj Some) in Heq.
  apply append_List_inj in Heq. f_equal. apply IHT1; try done.
  by rewrite Hs, Hs2, Heq.
Qed.

Lemma type_name_injective_witness :
  plain (T_vector (T_vector T_Key)) = true ∧
  get (T_vector (T_vector T_Key)) = Some "List|List|Key"%string ∧
  ∀ T, plain T = true → get T = Some "List|List|Key"%string →
       T = T_vector (T_vector T_Key).
Proof.
  split; [reflexivity|]. split; [reflexivity|].
  intros T HT Hname.
  apply (type_name_injective T (T_vector (T_vector T_Key)) HT eq_refl Hname).
Defined.

(** X5. A vector nested [n] deep is named by [n] times "List|" in front of the
    name of its element type, and has a name exactly when the element type
    has one; every enumeration is named "Enum", whatever the enumeration. *)
Theorem nested_vector_name (n : nat) (T : CType) :
  get (nested n T) = String.append (list_prefix n) <$> get T ∧
  (is_Some (get (nested n T)) ↔ is_Some (get T)) ∧
  ∀ tag, get (nested n (T_enum tag)) =
         Some (String.append (list_prefix n) "Enum").
Proof.
  assert (∀ T, get (nested n T) = String.append (list_prefix n) <$> get T)
    as Hn.
  { clear T. intros T. induction n as [|n IH].
    - cbn [nested list_prefix]. by destruct (get T).
    - cbn [nested list_prefix get]. rewrite IH.
      destruct (get T) as [s|]; [|done].
      cbn [fmap option_fmap option_map]. by rewrite append_List_assoc. }
  split; [done|]. split.
  - rewrite Hn. destruct (get T); simpl; split; intros [? ?]; by eexists.
  - intros tag. by rewrite Hn.
Qed.
End OptionTypeNameFacts.

(** ** More on the timer's timeout *)

Section TimerMore.

(** X6. The millisecond timeout rounds the remaining microseconds down: it is
    never later than the deadline and less than a millisecond early, it
    fits 64 bits, and a later deadline never gives a shorter timeout. *)
Theorem timer_timeout_rounds_down (o : LibUVSourceTime.t) (s : Sys) :
  is_uint64 (LibUVSourceTime.time_ o) →
  let curr := (now (LibUVSourceTime.clock_ o) s).1 in
  let remaining := Z.max 0 (LibUVSourceTime.time_ o - curr) in
  ∃ timeout,
    (LibUVSourceTime.setup o s).1 = uv_timer timeout 0 ∧
    timeout * 1000 <= remaining < timeout * 1000 + 1000 ∧
    is_uint64 timeout ∧
    ∀ later, is_uint64 later → LibUVSourceTime.time_ o <= later →
      ∃ timeout',
        (LibUVSourceTime.setup (LibUVSourceTime.with_time later o) s).1 =
          uv_timer timeout' 0 ∧
        timeout <= timeout'.
Proof.
  intros Ht curr remaining.
  pose proof (now_range (LibUVSourceTime.clock_ o) s) as Hn.
  fold curr in Hn. unfold is_uint64 in *.
  exists (remaining / 1000). split; [by apply timer_setup_timeout|].
  assert (0 <= remaining) by (unfold remaining; lia).
  split; [|split].
  - pose proof (Z.div_mod remaining 1000 ltac:(lia)) as Hdm.
    pose proof (Z.mod_pos_bound remaining 1000 ltac:(lia)). lia.
  - split; [by apply Z.div_pos|].
    apply Z.le_lt_trans with remaining; [|unfold remaining; lia].
    apply Z.div_le_upper_bound; lia.
  - intros later Hl Hle. eexists. split.
    + by apply timer_setup_timeout.
    + apply Z.div_le_mono; [lia|]. unfold remaining, curr.
      cbn [LibUVSourceTime.time_ LibUVSourceTime.clock_
           LibUVSourceTime.with_time]. lia.
Qed.

Lemma timer_timeout_rounds_down_witness :
  let o := {| LibUVSourceTime.base_ := {| handle_ := None; state_ := Oneshot |};
              LibUVSourceTime.time_ := 5002999;
              LibUVSourceTime.clock_ := CLOCK_MONOTONIC;
              LibUVSourceTime.accuracy_ := 0;
              LibUVSourceTime.callback_ := λ _ _ _, ([], Returns true) |} in
  let s := {| uvloop := None; now_answers := λ _ _, 5000000;
              now_calls := 0 |} in
  is_uint64 5002999 ∧
  ∃ timeout, (LibUVSourceTime.setup o s).1 = uv_timer timeout 0 ∧
    timeout * 1000 <= 2999 < timeout * 1000 + 1000.
Proof.
  intros o s.
  assert (is_uint64 5002999) as Hr by (unfold is_uint64; lia).
  split; [exact Hr|].
  destruct (timer_timeout_rounds_down o s Hr) as (timeout & Hs & Hb & _).
  exists timeout. split; [exact Hs|]. exact Hb.
Defined.
End TimerMore.

(** ** Setters and getters *)

Section AccessorFacts.
Context {FB : FlagBits}.

Lemma observe_resetEvent_IO this (t : LibUVSourceIO.t) s :
  observe (IOSource (resetEvent this t s).1) = observe (IOSource t).
Proof. destruct (resetEvent_fst this t s) as [h ->]. by destruct t. Qed.

Lemma observe_resetEvent_Time this (t : LibUVSourceTime.t) s :
  observe (TimeSource (resetEvent this t s).1) = observe (TimeSource t).
Proof. destruct (resetEvent_fst this t s) as [h ->]. by destruct t. Qed.

Lemma observe_setState_IO this st (t : LibUVSourceIO.t) s :
  observe (IOSource (setState this st t s).1) =
  IOView st (LibUVSourceIO.fd_ t) (LibUVSourceIO.flags_ t)
    (LibUVSourceIO.revents_ t).
Proof.
  unfold setState. destruct (decide (state_ (base t) ≠ st)) as [Hne|He].
  - rewrite observe_resetEvent_IO. by destruct t.
  - apply dec_stable in He. simpl. by rewrite <- He.
Qed.

Lemma observe_setState_Time this st (t : LibUVSourceTime.t) s :
  observe (TimeSource (setState this st t s).1) =
  TimeView st (LibUVSourceTime.time_ t) (LibUVSourceTime.accuracy_ t)
    (LibUVSourceTime.clock_ t).
Proof.
  unfold setState. destruct (decide (state_ (base t) ≠ st)) as [Hne|He].
  - rewrite observe_resetEvent_Time. by destruct t.
  - apply dec_stable in He. simpl. by rewrite <- He.
Qed.

(** What [method] leaves of the object, for a setter. *)
Lemma observe_method this m o s :
  is_setter m = true →
  observe <$> (method this m o s).1 = Some (view_after m (observe o)).
Proof.
  intros Hm. destruct o as [t|t|t], m; try done; cbn [method].
  - pose proof (observe_setState_IO this
                  (if enabled then Enabled else Disabled) t s) as H.
    unfold LibUVSource_setEnabled. destruct (setState _ _ _ _).
    simpl in *. by rewrite H.
  - pose proof (observe_setState_IO this Oneshot t s) as H.
    unfold LibUVSource_setOneShot. destruct (setState _ _ _ _).
    simpl in *. by rewrite H.
  - unfold LibUVSourceIO.setFd. destruct (decide _) as [Hne|He].
    + pose proof (observe_resetEvent_IO this (LibUVSourceIO.with_fd fd t) s)
        as H.
      destruct (resetEvent _ _ _). simpl in *. by rewrite H.
    + apply dec_stable in He. by subst.
  - unfold LibUVSourceIO.setEvents. destruct (decide _) as [Hne|He].
    + pose proof (observe_resetEvent_IO this
                    (LibUVSourceIO.with_flags flags t) s) as H.
      destruct (resetEvent _ _ _). simpl in *. by rewrite H.
    + apply dec_stable in He. by subst.
  - pose proof (observe_setState_Time this
                  (if enabled then Enabled else Disabled) t s) as H.
    unfold LibUVSource_setEnabled. destruct (setState _ _ _ _).
    simpl in *. by rewrite H.
  - pose proof (observe_setState_Time this Oneshot t s) as H.
    unfold LibUVSource_setOneShot. destruct (setState _ _ _ _).
    simpl in *. by rewrite H.
  - pose proof (observe_resetEvent_Time this
                  (LibUVSourceTime.with_time time t) s) as H.
    unfold LibUVSourceTime.setTime. destruct (resetEvent _ _ _).
    simpl in *. by rewrite H.
  - pose proof (observe_resetEvent_Time this
                  (LibUVSourceTime.with_clock clockid t) s) as H.
    unfold LibUVSourceTime.setClock. destruct (resetEvent _ _ _).
    simpl in *. by rewrite H.
Qed.

(** [call] touches one object of the heap and nothing else of the world
    but the system. *)
Lemma call_frame p m w :
  (∀ q, q ≠ p → heap (call (p, m) w) !! q = heap w !! q) ∧
  log (call (p, m) w) = log w ∧
  exitEvents_ (call (p, m) w) = exitEvents_ w ∧
  next_ptr (call (p, m) w) = next_ptr w.
Proof.
  unfold call. destruct (heap w !! p) as [o|]; [|done].
  destruct (method p m o (sys w)) as [[o'|] s']; simpl.
  - split; [|done]. intros q Hq. by rewrite lookup_insert_ne.
  - split; [|done]. intros q Hq. by rewrite lookup_delete_ne.
Qed.

Lemma call_heap p m w o :
  heap w !! p = Some o →
  heap (call (p, m) w) !! p = (method p m o (sys w)).1.
Proof.
  intros Hheap. unfold call. rewrite Hheap.
  destruct (method p m o (sys w)) as [[o'|] s']; simpl.
  - by rewrite lookup_insert_eq.
  - by rewrite lookup_delete_eq.
Qed.

(** X7. After a setter the getters return what was set, and everything the
    setter is not named after is as before: the other fields of the source
    (its [revents()] among them), every other source, the exit list and the
    log of invocations. *)
Theorem setter_then_getter (p : ptr) (m : Method) (w : World) (o : Object) :
  heap w !! p = Some o → is_setter m = true →
  let w' := call (p, m) w in
  (observe <$> heap w' !! p) = Some (view_after m (observe o)) ∧
  (∀ q, q ≠ p → heap w' !! q = heap w !! q) ∧
  log w' = log w ∧ exitEvents_ w' = exitEvents_ w.
Proof.
  intros Hheap Hm w'. unfold w'.
  destruct (call_frame p m w) as (Hq & Hl & He & _).
  rewrite (call_heap p m w o Hheap). split; [by apply observe_method|done].
Qed.

(** X8. A setter of the comparing kind changes nothing at all, native
    handle and clock included, exactly when the value it is handed is the
    stored one ([state_], [fd_], [flags_], [accuracy_]), that is when no
    getter would return anything new; so calling such a setter twice is
    the same as calling it once.  That [isEnabled()] already returns true
    is not enough for [setEnabled(true)]: on a OneShot source it does
    change the world, and leaves the source Enabled. *)
Theorem repeated_setter_is_noop (p : ptr) (m : Method) (w : World) :
  compares_first m = true →
  (∀ o, heap w !! p = Some o →
        (call (p, m) w = w ↔ view_after m (observe o) = observe o)) ∧
  call (p, m) (call (p, m) w) = call (p, m) w ∧
  (∀ o, heap w !! p = Some o → m = setEnabled true →
        view_state (observe o) = Oneshot →
        call (p, m) w ≠ w ∧
        view_state <$> (observe <$> heap (call (p, m) w) !! p) =
          Some Enabled).
Proof.
  intros Hm.
  assert (is_setter m = true) as Hset by (by destruct m).
  assert (∀ w o, heap w !! p = Some o → call (p, m) w = w →
                 view_after m (observe o) = observe o) as Hchanged.
  { clear w. intros w o Hheap Hcall.
    pose proof (call_heap p m w o Hheap) as Hh.
    pose proof (observe_method p m o (sys w) Hset) as Hobs.
    rewrite <- Hh, Hcall, Hheap in Hobs. by injection Hobs. }
  assert (∀ w o, heap w !! p = Some o → view_after m (observe o) = observe o →
                 call (p, m) w = w) as Hnoop.
  { clear w. intros w o Hheap Hv. unfold call. rewrite Hheap.
    assert (method p m o (sys w) = (Some o, sys w)) as ->.
    { destruct o as [t|t|t], m; try done; cbn [method]; simpl in Hv.
      - unfold LibUVSource_setEnabled, setState.
        destruct (decide _) as [Hne|]; [|done]. destruct Hne. by simplify_eq.
      - unfold LibUVSource_setOneShot, setState.
        destruct (decide _) as [Hne|]; [|done]. destruct Hne. by simplify_eq.
      - unfold LibUVSourceIO.setFd.
        destruct (decide _) as [Hne|]; [|done]. destruct Hne.
        unfold LibUVSourceIO.fd in Hv. by simplify_eq.
      - unfold LibUVSourceIO.setEvents.
        destruct (decide _) as [Hne|]; [|done]. destruct Hne.
        unfold LibUVSourceIO.events in Hv. by simplify_eq.
      - unfold LibUVSource_setEnabled, setState.
        destruct (decide _) as [Hne|]; [|done]. destruct Hne. by simplify_eq.
      - unfold LibUVSource_setOneShot, setState.
        destruct (decide _) as [Hne|]; [|done]. destruct Hne. by simplify_eq.
      - unfold LibUVSourceTime.accuracy in Hv. simplify_eq.
        do 2 f_equal. by destruct t.
      - injection Hv as Hv. destruct t as [st cb]. simpl in Hv.
        unfold LibUVSourceExit.setEnabled. simpl. by rewrite Hv.
      - injection Hv as Hv. destruct t as [st cb]. simpl in Hv.
        unfold LibUVSourceExit.setOneShot. simpl. by rewrite Hv. }
    rewrite insert_id by done. by destruct w. }
  split; [intros o Hheap; split; [by apply Hchanged|by apply Hnoop]|].
  split.
  - destruct (heap w !! p) as [o|] eqn:Hheap.
    + pose proof (observe_method p m o (sys w) Hset) as Hobs.
      pose proof (call_heap p m w o Hheap) as Hh.
      destruct ((method p m o (sys w)).1) as [o'|] eqn:Ho'; [|done].
      simpl in Hobs. injection Hobs as Hobs.
      apply (Hnoop _ o' Hh). rewrite Hobs.
      destruct (observe o), m; try done.
    + assert (call (p, m) w = w) as -> by (unfold call; by rewrite Hheap).
      unfold call. by rewrite Hheap.
  - intros o Hheap -> Hst. split.
    + intros Hcall. apply (Hchanged w o Hheap) in Hcall.
      destruct (observe o); simpl in *; congruence.
    + rewrite (call_heap p _ w o Hheap).
      rewrite (observe_method p _ o (sys w) Hset).
      by destruct (observe o).
Qed.
End AccessorFacts.

Section AccessorWitness.
#[local] Existing Instance header_bits.

Lemma setter_then_getter_witness :
  ∃ o, heap io_world !! 0%nat = Some o ∧
    (observe <$> heap (call (0%nat, setFd 7) io_world) !! 0%nat) =
      Some (view_after (setFd 7) (observe o)) ∧
    view_after (setFd 7) (observe o) = IOView Enabled 7 1 0.
Proof.
  destruct (heap io_world !! 0%nat) as [o|] eqn:Hheap;
    [|by vm_compute in Hheap].
  exists o. split; [done|].
  split; [exact (proj1 (setter_then_getter 0%nat (setFd 7) io_world o
                          Hheap eq_refl))|].
  vm_compute in Hheap. injection Hheap as <-. by vm_compute.
Defined.

Lemma repeated_setter_is_noop_witness :
  let w := (addTimeEvent CLOCK_MONOTONIC 5000 0
              (λ _ _ _, ([], Returns true)) io_world).2 in
  call (0%nat, setEnabled true) w = w ∧
  call (0%nat, setFd 7) (call (0%nat, setFd 7) w) =
    call (0%nat, setFd 7) w ∧
  (view_state <$> (observe <$> heap w !! 1%nat) = Some Oneshot ∧
   call (1%nat, setEnabled true) w ≠ w ∧
   view_state <$>
     (observe <$> heap (call (1%nat, setEnabled true) w) !! 1%nat) =
     Some Enabled).
Proof.
  intros w. split; [|split].
  - destruct (heap w !! 0%nat) as [o|] eqn:Hheap;
      [|by vm_compute in Hheap].
    apply (proj1 (repeated_setter_is_noop 0%nat (setEnabled true) w
                    eq_refl) o Hheap).
    vm_compute in Hheap. injection Hheap as <-. by vm_compute.
  - exact (proj1 (proj2 (repeated_setter_is_noop 0%nat (setFd 7) w
                           eq_refl))).
  - split; [by vm_compute|].
    destruct (heap w !! 1%nat) as [o|] eqn:Hheap;
      [|by vm_compute in Hheap].
    apply (proj2 (proj2 (repeated_setter_is_noop 1%nat (setEnabled true) w
                           eq_refl)) o Hheap eq_refl).
    vm_compute in Hheap. injection Hheap as <-. by vm_compute.
Defined.
End AccessorWitness.

(** ** Sources do not interfere *)

Section TransitionFacts.
Context {T : Type} `{LibUVSourceLaws T}.

Lemma sys_handles_cleanup (t : T) s :
  sys_handles (cleanup t s).2 = detach_opt (handle_ (base t)) (sys_handles s).
Proof.
  unfold sys_handles. rewrite uvloop_cleanup.
  destruct (handle_ (base t)); [|done]. simpl.
  destruct (uvloop s); simpl; [done|]. by rewrite alter_empty.
Qed.

Lemma alive_cleanup (t : T) s :
  is_Some (uvloop (cleanup t s).2) ↔ is_Some (uvloop s).
Proof.
  rewrite uvloop_cleanup. destruct (handle_ (base t)); [|done].
  destruct (uvloop s); simpl; split; intros [? ?]; by eexists.
Qed.

Lemma base_cleanup (t : T) s :
  base (cleanup t s).1 = {| handle_ := None; state_ := state_ (base t) |}.
Proof. rewrite cleanup_spec. simpl. by rewrite base_set_handle_. Qed.

(** What [resetEvent] does to the source's handle and to the handles of
    the loop. *)
Lemma resetEvent_transition p (t : T) s :
  let r := resetEvent p t s in
  let m1 := detach_opt (handle_ (base t)) (sys_handles s) in
  state_ (base r.1) = state_ (base t) ∧
  (is_Some (uvloop r.2) ↔ is_Some (uvloop s)) ∧
  (is_Some (uvloop s) →
     (is_Some (handle_ (base r.1)) ↔ state_ (base t) ≠ Disabled)) ∧
  match handle_ (base r.1) with
  | Some h' =>
      m1 !! h' = None ∧
      sys_handles r.2 =
        <[h' := {| data := Some p; closing := false;
                   registration := (setup t s).1 |}]> m1
  | None => sys_handles r.2 = m1
  end.
Proof.
  intros r m1. split; [apply state_resetEvent|].
  pose proof (sys_handles_cleanup t s) as Hm. fold m1 in Hm.
  pose proof (alive_cleanup t s) as Hal.
  subst r. rewrite resetEvent_spec. cbv zeta.
  destruct (decide (state_ (base t) = Disabled)) as [Hd|Hd].
  { cbn [fst snd]. rewrite base_set_handle_. cbn [handle_].
    split; [done|]. split; [|done].
    intros _. split; [by intros [? ?]|done]. }
  destruct (uvloop (cleanup t s).2) as [loop|] eqn:Hl.
  - cbn [fst snd]. rewrite base_set_handle_. cbn [handle_].
    assert (handles loop = m1) as Hloop.
    { rewrite <- Hm. unfold sys_handles. by rewrite Hl. }
    split.
    { split; intros _; [apply Hal; by eexists|by eexists]. }
    split; [intros _; split; [done|by eexists]|].
    split.
    + rewrite <- Hloop. apply not_elem_of_dom. unfold calloc. apply is_fresh.
    + unfold sys_handles. cbn [uvloop set_uvloop handles].
      by rewrite Hloop, setup_after_cleanup.
  - cbn [fst snd]. rewrite base_set_handle_. cbn [handle_].
    split; [by rewrite Hl|]. split; [|done].
    intros Hs. apply Hal in Hs. by destruct Hs.
Qed.

Lemma cleanup_dead (t : T) s :
  handle_ (base t) = None → (cleanup t s).2 = s.
Proof. intros Hh. rewrite cleanup_spec. cbn [snd]. by rewrite Hh. Qed.

(** Without a loop and without a handle [resetEvent] does nothing to the
    system. *)
Lemma resetEvent_dead p (t : T) s :
  uvloop s = None → handle_ (base t) = None → (resetEvent p t s).2 = s.
Proof.
  intros Hd Hh. rewrite resetEvent_spec. cbv zeta.
  rewrite (cleanup_dead t s Hh).
  destruct (decide _); [done|]. by rewrite Hd.
Qed.

Lemma setState_dead p st (t : T) s :
  uvloop s = None → handle_ (base t) = None → (setState p st t s).2 = s.
Proof.
  intros Hd Hh. unfold setState. destruct (decide _); [|done].
  apply resetEvent_dead; [done|]. by rewrite handle_set_state_.
Qed.

Lemma detach_opt_lookup_other handle m h :
  handle ≠ Some h → detach_opt handle m !! h = m !! h.
Proof.
  destruct handle as [h0|]; [|done]. intros Hne. simpl.
  apply lookup_alter_ne. congruence.
Qed.

Lemma detach_opt_lookup_own m h hd :
  detach_opt (Some h) m !! h = Some hd → data hd = None ∧ closing hd = true.
Proof.
  simpl. rewrite lookup_alter_eq. destruct (m !! h); [|done].
  simpl. by intros [= <-].
Qed.
End TransitionFacts.

Section InterferenceFacts.
Context {FB : FlagBits}.

Lemma handles_of_set w h s :
  handles_of (set_heap h (set_sys s w)) = sys_handles s.
Proof. done. Qed.

Lemma handles_of_sys w : handles_of w = sys_handles (sys w).
Proof. done. Qed.

(** Two sources never hold the same handle. *)
Lemma hc_owner_unique w p q o oq h :
  handles_consistent w →
  heap w !! p = Some o → own_handle o = Some h →
  heap w !! q = Some oq → own_handle oq = Some h → p = q.
Proof.
  intros Hc Hp Hop Hq Hoq.
  destruct (hc_owner w Hc p o h Hp Hop) as (hd & Hh & Hd & _).
  destruct (hc_owner w Hc q oq h Hq Hoq) as (hd' & Hh' & Hd' & _).
  congruence.
Qed.

(** Replacing the object at [p] by one of the same class whose handle is
    either the old one, with the loop as it was, or a handle newly
    registered after the old one was detached. *)
Lemma handles_consistent_update w p o o2 s2 :
  handles_consistent w → heap w !! p = Some o →
  (∀ reg, kind_matches reg o2 = kind_matches reg o) →
  match own_handle o2 with
  | Some h' =>
      (own_handle o = Some h' ∧ sys_handles s2 = handles_of w) ∨
      (detach_opt (own_handle o) (handles_of w) !! h' = None ∧
       ∃ reg, kind_matches reg o2 = true ∧
         sys_handles s2 =
           <[h' := {| data := Some p; closing := false;
                      registration := reg |}]>
             (detach_opt (own_handle o) (handles_of w)))
  | None => sys_handles s2 = detach_opt (own_handle o) (handles_of w)
  end →
  handles_consistent (set_heap (<[p := o2]> (heap w)) (set_sys s2 w)).
Proof.
  intros Hc Hp Hk Htr.
  set (m1 := detach_opt (own_handle o) (handles_of w)) in *.
  assert (∀ q oq h hd, q ≠ p → heap w !! q = Some oq →
            own_handle oq = Some h → handles_of w !! h = Some hd →
            sys_handles s2 !! h = Some hd) as Hkeep.
  { intros q oq h hd Hq Hhq Hoq Hh.
    assert (own_handle o ≠ Some h) as Hne.
    { intros Ho. apply Hq. symmetry.
      by apply (hc_owner_unique w p q o oq h). }
    assert (m1 !! h = Some hd) as Hm1
      by (unfold m1; by rewrite detach_opt_lookup_other).
    destruct (own_handle o2) as [h'|].
    - destruct Htr as [[_ ->]|(Hfree & reg & _ & ->)]; [done|].
      rewrite lookup_insert_ne; [done|]. intros ->. congruence.
    - by rewrite Htr. }
  assert (∀ h hd, sys_handles s2 !! h = Some hd →
            (own_handle o2 = Some h ∧ data hd = Some p) ∨
            (data hd = None ∧ closing hd = true) ∨
            (own_handle o ≠ Some h ∧ handles_of w !! h = Some hd)) as Hfrom.
  { intros h hd Hh.
    assert (m1 !! h = Some hd →
            (data hd = None ∧ closing hd = true) ∨
            (own_handle o ≠ Some h ∧ handles_of w !! h = Some hd)) as Hm1.
    { intros Hm. destruct (decide (own_handle o = Some h)) as [Ho|Ho].
      - left. unfold m1 in Hm. rewrite Ho in Hm.
        by apply detach_opt_lookup_own in Hm.
      - right. split; [done|]. unfold m1 in Hm.
        by rewrite detach_opt_lookup_other in Hm. }
    destruct (own_handle o2) as [h'|] eqn:Ho2.
    - destruct Htr as [[Ho Hs]|(Hfree & reg & _ & Hs)]; rewrite Hs in Hh.
      + destruct (decide (h = h')) as [->|Hne].
        * left. split; [done|].
          destruct (hc_owner w Hc p o h' Hp Ho) as (hd' & Hh' & Hd & _).
          congruence.
        * right. right. split; [congruence|done].
      + destruct (decide (h = h')) as [->|Hne].
        * rewrite lookup_insert_eq in Hh. injection Hh as <-. by left.
        * rewrite lookup_insert_ne in Hh by done. right. by apply Hm1.
    - rewrite Htr in Hh. right. by apply Hm1. }
  split.
  - intros q [oq Hq]. cbn [heap set_heap next_ptr set_sys] in *.
    apply (hc_fresh w Hc). destruct (decide (q = p)) as [->|Hne].
    + by eexists.
    + rewrite lookup_insert_ne in Hq by done. by eexists.
  - intros q oq h Hq Hoq. rewrite handles_of_set.
    cbn [heap set_heap] in Hq.
    destruct (decide (q = p)) as [->|Hne].
    + rewrite lookup_insert_eq in Hq. injection Hq as <-.
      rewrite Hoq in Htr.
      destruct Htr as [[Ho ->]|(Hfree & reg & Hreg & ->)].
      * destruct (hc_owner w Hc p o h Hp Ho) as (hd & ? & ? & ? & ?).
        exists hd. by rewrite Hk.
      * eexists. by rewrite lookup_insert_eq.
    + rewrite lookup_insert_ne in Hq by done.
      destruct (hc_owner w Hc q oq h Hq Hoq) as (hd & Hh & ? & ? & ?).
      exists hd. split; [|done]. by apply (Hkeep q oq).
  - intros h hd Hh. rewrite handles_of_set in Hh.
    cbn [heap set_heap].
    destruct (Hfrom h hd Hh) as [[Ho2 Hd]|[[Hd Hcl]|[Ho Hw]]].
    + rewrite Hd. exists o2. by rewrite lookup_insert_eq.
    + by rewrite Hd.
    + pose proof (hc_back w Hc h hd Hw) as Hb.
      destruct (data hd) as [q|]; [|done].
      destruct Hb as (oq & Hq & Hoq).
      assert (q ≠ p) as Hne by (intros ->; congruence).
      exists oq. by rewrite lookup_insert_ne.
Qed.

(** Removing the object at [p] after its handle was detached. *)
Lemma handles_consistent_delete w p o s2 :
  handles_consistent w → heap w !! p = Some o →
  sys_handles s2 = detach_opt (own_handle o) (handles_of w) →
  handles_consistent (set_heap (delete p (heap w)) (set_sys s2 w)).
Proof.
  intros Hc Hp Hs. split.
  - intros q [oq Hq]. cbn [heap set_heap next_ptr set_sys] in *.
    apply (hc_fresh w Hc). destruct (decide (q = p)) as [->|Hne].
    + by rewrite lookup_delete_eq in Hq.
    + rewrite lookup_delete_ne in Hq by done. by eexists.
  - intros q oq h Hq Hoq. rewrite handles_of_set, Hs.
    cbn [heap set_heap] in Hq.
    destruct (decide (q = p)) as [->|Hne];
      [by rewrite lookup_delete_eq in Hq|].
    rewrite lookup_delete_ne in Hq by done.
    destruct (hc_owner w Hc q oq h Hq Hoq) as (hd & Hh & ? & ? & ?).
    exists hd. split; [|done]. rewrite detach_opt_lookup_other; [done|].
    intros Ho. apply Hne. symmetry. by apply (hc_owner_unique w p q o oq h).
  - intros h hd Hh. rewrite handles_of_set, Hs in Hh. cbn [heap set_heap].
    destruct (decide (own_handle o = Some h)) as [Ho|Ho].
    + rewrite Ho in Hh. apply detach_opt_lookup_own in Hh as [-> ?]. done.
    + rewrite detach_opt_lookup_other in Hh by done.
      pose proof (hc_back w Hc h hd Hh) as Hb.
      destruct (data hd) as [q|]; [|done].
      destruct Hb as (oq & Hq & Hoq).
      assert (q ≠ p) as Hne by (intros ->; congruence).
      exists oq. by rewrite lookup_delete_ne.
Qed.
End InterferenceFacts.

Section ConsistencyFacts.
Context {FB : FlagBits}.

Lemma quiet_transition p o o2 s :
  object_base o2 = object_base o →
  (∀ reg, kind_matches reg o2 = kind_matches reg o) →
  handle_transition p o s (Some o2, s).
Proof.
  intros Hb Hk. split; [done|]. cbn [fst snd]. split; [done|].
  split; [unfold enabled_iff_own; by rewrite Hb|].
  unfold own_handle. rewrite Hb.
  destruct (object_base o ≫= handle_) eqn:Ho; [by left|done].
Qed.

Lemma reset_transition_IO p (t t1 : LibUVSourceIO.t) s :
  handle_ (base t1) = handle_ (base t) →
  handle_transition p (IOSource t) s
    (Some (IOSource (resetEvent p t1 s).1), (resetEvent p t1 s).2).
Proof.
  intros Hh.
  destruct (resetEvent_transition p t1 s) as (Hst & Hal & Hen & Htr).
  split; [done|]. cbn [fst snd]. split; [done|]. split.
  - intros Hs _ b [= <-].
    change (is_Some (handle_ (base (resetEvent p t1 s).1)) ↔
            state_ (base (resetEvent p t1 s).1) ≠ Disabled).
    rewrite Hst. by apply Hen.
  - change (own_handle (IOSource t)) with (handle_ (base t)).
    change (own_handle (IOSource (resetEvent p t1 s).1))
      with (handle_ (base (resetEvent p t1 s).1)).
    rewrite <- Hh. destruct (handle_ (base (resetEvent p t1 s).1)); [|done].
    right. destruct Htr as [Hfree Hs]. split; [done|].
    exists (setup t1 s).1. split; [reflexivity|done].
Qed.

Lemma reset_transition_Time p (t t1 : LibUVSourceTime.t) s :
  handle_ (base t1) = handle_ (base t) →
  handle_transition p (TimeSource t) s
    (Some (TimeSource (resetEvent p t1 s).1), (resetEvent p t1 s).2).
Proof.
  intros Hh.
  destruct (resetEvent_transition p t1 s) as (Hst & Hal & Hen & Htr).
  split; [done|]. cbn [fst snd]. split; [done|]. split.
  - intros Hs _ b [= <-].
    change (is_Some (handle_ (base (resetEvent p t1 s).1)) ↔
            state_ (base (resetEvent p t1 s).1) ≠ Disabled).
    rewrite Hst. by apply Hen.
  - change (own_handle (TimeSource t)) with (handle_ (base t)).
    change (own_handle (TimeSource (resetEvent p t1 s).1))
      with (handle_ (base (resetEvent p t1 s).1)).
    rewrite <- Hh. destruct (handle_ (base (resetEvent p t1 s).1)); [|done].
    right. destruct Htr as [Hfree Hs]. split; [done|].
    exists (setup t1 s).1. split; [reflexivity|done].
Qed.

Lemma setState_transition_IO p st (t : LibUVSourceIO.t) s :
  handle_transition p (IOSource t) s
    (Some (IOSource (setState p st t s).1), (setState p st t s).2).
Proof.
  unfold setState. destruct (decide _).
  - apply reset_transition_IO, handle_set_state_.
  - by apply quiet_transition.
Qed.

Lemma setState_transition_Time p st (t : LibUVSourceTime.t) s :
  handle_transition p (TimeSource t) s
    (Some (TimeSource (setState p st t s).1), (setState p st t s).2).
Proof.
  unfold setState. destruct (decide _).
  - apply reset_transition_Time, handle_set_state_.
  - by apply quiet_transition.
Qed.

Lemma cleanup_transition_IO p (t : LibUVSourceIO.t) s :
  handle_transition p (IOSource t) s (None, (cleanup t s).2).
Proof. split; [apply alive_cleanup|]. apply sys_handles_cleanup. Qed.

Lemma cleanup_transition_Time p (t : LibUVSourceTime.t) s :
  handle_transition p (TimeSource t) s (None, (cleanup t s).2).
Proof. split; [apply alive_cleanup|]. apply sys_handles_cleanup. Qed.

(** Every method is such a step. *)
Lemma method_transition p m o s :
  handle_transition p o s (method p m o s).
Proof.
  destruct o as [t|t|t], m; cbn [method];
    try (by apply quiet_transition).
  - pose proof (setState_transition_IO p
                  (if enabled then Enabled else Disabled) t s) as H.
    unfold LibUVSource_setEnabled. by destruct (setState _ _ _ _).
  - pose proof (setState_transition_IO p Oneshot t s) as H.
    unfold LibUVSource_setOneShot. by destruct (setState _ _ _ _).
  - unfold LibUVSourceIO.setFd. destruct (decide _).
    + pose proof (reset_transition_IO p t (LibUVSourceIO.with_fd fd t) s
                    eq_refl) as H.
      by destruct (resetEvent _ _ _).
    + by apply quiet_transition.
  - unfold LibUVSourceIO.setEvents. destruct (decide _).
    + pose proof (reset_transition_IO p t (LibUVSourceIO.with_flags flags t) s
                    eq_refl) as H.
      by destruct (resetEvent _ _ _).
    + by apply quiet_transition.
  - pose proof (cleanup_transition_IO p t s) as H.
    by destruct (cleanup t s).
  - pose proof (setState_transition_Time p
                  (if enabled then Enabled else Disabled) t s) as H.
    unfold LibUVSource_setEnabled. by destruct (setState _ _ _ _).
  - pose proof (setState_transition_Time p Oneshot t s) as H.
    unfold LibUVSource_setOneShot. by destruct (setState _ _ _ _).
  - pose proof (reset_transition_Time p t (LibUVSourceTime.with_time time t) s
                  eq_refl) as H.
    unfold LibUVSourceTime.setTime. by destruct (resetEvent _ _ _).
  - pose proof (reset_transition_Time p t
                  (LibUVSourceTime.with_clock clockid t) s eq_refl) as H.
    unfold LibUVSourceTime.setClock. by destruct (resetEvent _ _ _).
  - pose proof (cleanup_transition_Time p t s) as H.
    by destruct (cleanup t s).
  - split; [done|]. done.
Qed.

Lemma method_dead p m o s :
  uvloop s = None → own_handle o = None → (method p m o s).2 = s.
Proof.
  intros Hd Ho. destruct o as [t|t|t], m; cbn [method]; try done.
  - pose proof (setState_dead p (if enabled then Enabled else Disabled)
                  t s Hd Ho) as H.
    unfold LibUVSource_setEnabled. by destruct (setState _ _ _ _).
  - pose proof (setState_dead p Oneshot t s Hd Ho) as H.
    unfold LibUVSource_setOneShot. by destruct (setState _ _ _ _).
  - unfold LibUVSourceIO.setFd. destruct (decide _); [|done].
    pose proof (resetEvent_dead p (LibUVSourceIO.with_fd fd t) s Hd Ho) as H.
    by destruct (resetEvent _ _ _).
  - unfold LibUVSourceIO.setEvents. destruct (decide _); [|done].
    pose proof (resetEvent_dead p (LibUVSourceIO.with_flags flags t) s
                  Hd Ho) as H.
    by destruct (resetEvent _ _ _).
  - pose proof (cleanup_dead t s Ho) as H. by destruct (cleanup t s).
  - pose proof (setState_dead p (if enabled then Enabled else Disabled)
                  t s Hd Ho) as H.
    unfold LibUVSource_setEnabled. by destruct (setState _ _ _ _).
  - pose proof (setState_dead p Oneshot t s Hd Ho) as H.
    unfold LibUVSource_setOneShot. by destruct (setState _ _ _ _).
  - pose proof (resetEvent_dead p (LibUVSourceTime.with_time time t) s
                  Hd Ho) as H.
    unfold LibUVSourceTime.setTime. by destruct (resetEvent _ _ _).
  - pose proof (resetEvent_dead p (LibUVSourceTime.with_clock clockid t) s
                  Hd Ho) as H.
    unfold LibUVSourceTime.setClock. by destruct (resetEvent _ _ _).
  - pose proof (cleanup_dead t s Ho) as H. by destruct (cleanup t s).
Qed.

Lemma method_step p m o s : object_transition p o s (method p m o s).
Proof. split; [apply method_transition|apply method_dead]. Qed.

Lemma setState_step_IO p st (t : LibUVSourceIO.t) s :
  object_transition p (IOSource t) s
    (Some (IOSource (setState p st t s).1), (setState p st t s).2).
Proof.
  split; [apply setState_transition_IO|].
  intros Hd Ho. by apply setState_dead.
Qed.

Lemma setState_step_Time p st (t : LibUVSourceTime.t) s :
  object_transition p (TimeSource t) s
    (Some (TimeSource (setState p st t s).1), (setState p st t s).2).
Proof.
  split; [apply setState_transition_Time|].
  intros Hd Ho. by apply setState_dead.
Qed.

Lemma resetEvent_step_Time p (t : LibUVSourceTime.t) s :
  object_transition p (TimeSource t) s
    (Some (TimeSource (resetEvent p t s).1), (resetEvent p t s).2).
Proof.
  split; [by apply reset_transition_Time|].
  intros Hd Ho. by apply resetEvent_dead.
Qed.

(** A step on the object at [p] keeps the world consistent. *)
Lemma step_consistent w p o r :
  handles_consistent w → heap w !! p = Some o →
  handle_transition p o (sys w) r →
  handles_consistent
    (set_heap (match r.1 with
               | Some o2 => <[p := o2]> (heap w)
               | None => delete p (heap w)
               end) (set_sys r.2 w)).
Proof.
  intros Hc Hp [_ Htr]. destruct r as [[o2|] s2]; cbn [fst snd] in *.
  - destruct Htr as (Hk & _ & Htr).
    by apply (handles_consistent_update w p o o2 s2).
  - by apply (handles_consistent_delete w p o s2).
Qed.

Lemma step_enabled_iff w p o r :
  enabled_iff_handle w → heap w !! p = Some o →
  handle_transition p o (sys w) r →
  enabled_iff_handle
    (set_heap (match r.1 with
               | Some o2 => <[p := o2]> (heap w)
               | None => delete p (heap w)
               end) (set_sys r.2 w)).
Proof.
  intros He Hp [Hal Htr] Hs q oq b Hq Hb.
  cbn [sys set_heap set_sys heap] in *. apply Hal in Hs.
  destruct (decide (q = p)) as [->|Hne].
  - destruct r as [[o2|] s2]; cbn [fst snd] in *.
    + rewrite lookup_insert_eq in Hq. injection Hq as <-.
      destruct Htr as (_ & Hen & _). apply Hen; [done| |done].
      intros b0 Hb0. by apply (He Hs p o).
    + by rewrite lookup_delete_eq in Hq.
  - apply (He Hs q oq); [|done].
    destruct r as [[o2|] s2]; cbn [fst snd] in *.
    + by rewrite lookup_insert_ne in Hq.
    + by rewrite lookup_delete_ne in Hq.
Qed.

Lemma call_unfold p m w o :
  heap w !! p = Some o →
  call (p, m) w =
  set_heap (match (method p m o (sys w)).1 with
            | Some o2 => <[p := o2]> (heap w)
            | None => delete p (heap w)
            end) (set_sys (method p m o (sys w)).2 w).
Proof. intros Hp. unfold call. rewrite Hp. by destruct (method _ _ _ _). Qed.

(** Neither property looks at the exit list or at the log. *)
Lemma handles_consistent_ext w w' :
  sys w' = sys w → heap w' = heap w → next_ptr w' = next_ptr w →
  handles_consistent w → handles_consistent w'.
Proof.
  intros Hs Hh Hn [H1 H2 H3].
  split; unfold handles_of in *; rewrite ?Hs, ?Hh, ?Hn; by rewrite ?Hh.
Qed.

Lemma enabled_iff_ext w w' :
  sys w' = sys w → heap w' = heap w →
  enabled_iff_handle w → enabled_iff_handle w'.
Proof. intros Hs Hh He. unfold enabled_iff_handle. by rewrite Hs, Hh. Qed.

End ConsistencyFacts.

(** ** Properties every operation keeps

    [I] is a property of worlds that looks at the loop, the heap and the
    allocation pointer only, that every step of a source keeps, and that
    allocating a Disabled source without a handle keeps.  Then every
    operation of the event loop keeps it. *)
Section Preservation.
Context {FB : FlagBits}.
Variable I : World → Prop.
Hypothesis I_ext : ∀ w w',
  sys w' = sys w → heap w' = heap w → next_ptr w' = next_ptr w → I w → I w'.
Hypothesis I_step : ∀ w p o r,
  I w → heap w !! p = Some o → object_transition p o (sys w) r →
  I (set_heap (match r.1 with
               | Some o2 => <[p := o2]> (heap w)
               | None => delete p (heap w)
               end) (set_sys r.2 w)).
Hypothesis I_alloc : ∀ w o,
  I w →
  (∀ b, object_base o = Some b → handle_ b = None ∧ state_ b = Disabled) →
  I (allocated o w).

Lemma call_keeps c w : I w → I (call c w).
Proof.
  destruct c as [p m]. intros Hc.
  destruct (heap w !! p) as [o|] eqn:Hp.
  - rewrite (call_unfold p m w o Hp).
    apply (I_step w p o); [done..|apply method_step].
  - unfold call. by rewrite Hp.
Qed.

Lemma run_calls_keeps calls w : I w → I (run_calls calls w).
Proof.
  revert w. induction calls as [|c calls IH]; intros w Hc; [done|].
  simpl. by apply IH, call_keeps.
Qed.

Lemma invoke_keeps args callback w : I w → I (invoke args callback w).1.
Proof.
  intros Hc. rewrite invoke_spec. cbn [fst].
  apply run_calls_keeps. by apply (I_ext w).
Qed.

Lemma addIOEvent_keeps fd flags cb w : I w → I (addIOEvent fd flags cb w).2.
Proof.
  intros Hc.
  set (o0 := {| LibUVSourceIO.base_ := {| handle_ := None; state_ := Disabled |};
                LibUVSourceIO.fd_ := fd; LibUVSourceIO.flags_ := flags;
                LibUVSourceIO.revents_ := IOEventFlags_empty;
                LibUVSourceIO.callback_ := cb |}).
  assert (I (allocated (IOSource o0) w)) as H0.
  { apply I_alloc; [done|]. by intros b [= <-]. }
  pose proof (I_step _ (next_ptr w) (IOSource o0) _ H0
                (lookup_insert_eq _ _ _)
                (setState_step_IO (next_ptr w) Enabled o0 (sys w))) as H1.
  revert H1. apply I_ext; unfold addIOEvent, LibUVSourceIO.new,
    LibUVSource_setEnabled; fold o0;
    destruct (setState (next_ptr w) Enabled o0 (sys w)); [done| |done].
  cbn [snd fst heap set_heap set_sys allocated]. by rewrite insert_insert_eq.
Qed.

Lemma addTimeEvent_keeps clock usec accuracy cb w :
  I w → I (addTimeEvent clock usec accuracy cb w).2.
Proof.
  intros Hc.
  set (o0 := {| LibUVSourceTime.base_ :=
                  {| handle_ := None; state_ := Disabled |};
                LibUVSourceTime.time_ := usec; LibUVSourceTime.clock_ := clock;
                LibUVSourceTime.accuracy_ := accuracy;
                LibUVSourceTime.callback_ := cb |}).
  assert (I (allocated (TimeSource o0) w)) as H0.
  { apply I_alloc; [done|]. by intros b [= <-]. }
  pose proof (I_step _ (next_ptr w) (TimeSource o0) _ H0
                (lookup_insert_eq _ _ _)
                (setState_step_Time (next_ptr w) Oneshot o0 (sys w)))
    as H1.
  revert H1. apply I_ext; unfold addTimeEvent, LibUVSourceTime.new,
    LibUVSource_setOneShot; fold o0;
    destruct (setState (next_ptr w) Oneshot o0 (sys w)); [done| |done].
  cbn [snd fst heap set_heap set_sys allocated]. by rewrite insert_insert_eq.
Qed.

Lemma addExitEvent_keeps cb w : I w → I (addExitEvent cb w).2.
Proof.
  intros Hc.
  apply (I_ext (allocated (ExitSource (LibUVSourceExit.new cb)) w));
    [done..|].
  by apply I_alloc.
Qed.

Lemma IOEventCallback_keeps handle status events w w' :
  I w → final_world (IOEventCallback handle status events w) = Some w' →
  I w'.
Proof.
  intros Hc. unfold IOEventCallback.
  destruct (handle_data handle w) as [source|]; [|done].
  destruct (heap w !! source) as [[o| |]|]; try done.
  match goal with
  | |- context [invoke ?a ?c ?w1] =>
      pose proof (invoke_keeps a c w1) as Hw; destruct (invoke a c w1) as [w2 out]
  end.
  assert (I w2) as H2.
  { apply Hw. destruct (isOneShot o); [by apply call_keeps|done]. }
  destruct out; cbn [final_world]; by intros [= <-].
Qed.

Lemma TimeEventCallback_keeps handle w w' :
  I w → final_world (TimeEventCallback handle w) = Some w' → I w'.
Proof.
  intros Hc. unfold TimeEventCallback.
  destruct (handle_data handle w) as [source|]; [|done].
  destruct (heap w !! source) as [[|o|]|]; try done.
  match goal with
  | |- context [invoke ?a ?c ?w1] =>
      pose proof (invoke_keeps a c w1) as Hw; destruct (invoke a c w1) as [w2 out]
  end.
  assert (I w2) as H2.
  { apply Hw. destruct (isOneShot o); [by apply call_keeps|done]. }
  destruct out; cbn [final_world]; try by intros [= <-].
  unfold get_time.
  destruct (heap w2 !! source) as [[|o2|]|] eqn:Hs;
    try (cbn [final_world]; by intros [= <-]).
  destruct (isEnabled o2); [|cbn [final_world]; by intros [= <-]].
  pose proof (I_step w2 source (TimeSource o2) _ H2 Hs
                (resetEvent_step_Time source o2 (sys w2))) as H3.
  destruct (resetEvent source o2 (sys w2)). cbn [final_world].
  by intros [= <-].
Qed.

Lemma exec_visit_keeps ref w w' :
  I w → final_world (exec_visit ref w) = Some w' → I w'.
Proof.
  intros Hc. unfold exec_visit.
  destruct (get_exit ref w) as [event|]; [|cbn; by intros [= <-]].
  destruct (LibUVSourceExit.isEnabled event); [|cbn; by intros [= <-]].
  match goal with
  | |- context [invoke ?a ?c ?w1] =>
      pose proof (invoke_keeps a c w1) as Hw; destruct (invoke a c w1) as [w2 out]
  end.
  assert (I w2) as H2.
  { apply Hw. destruct (LibUVSourceExit.isOneShot event);
      [by apply call_keeps|done]. }
  destruct out; cbn [final_world]; by intros [= <-].
Qed.

Lemma exec_loop_keeps fuel iter w r w' :
  I w → exec_loop fuel iter w = Some r → final_world r = Some w' → I w'.
Proof.
  revert iter w. induction fuel as [|fuel IH]; intros iter w Hc; simpl.
  - destruct (exitEvents_ w !! iter); [done|]. intros [= <-] [= <-]. done.
  - destruct (exitEvents_ w !! iter) as [ref|];
      [|intros [= <-] [= <-]; done].
    pose proof (exec_visit_keeps ref w) as Hv.
    destruct (exec_visit ref w) as [[] w1|how w1|w1|];
      try (intros [= <-]; cbn [final_world]; intros [= <-]; by apply Hv).
    specialize (Hv w1 Hc eq_refl).
    destruct (negb (isValid_exit ref w1)); apply IH; [|done].
    by apply (I_ext w1).
Qed.

Lemma exec_keeps uv_run w r w' :
  (∀ w0, I w0 → I (uv_run w0).2) →
  I w → exec uv_run w = Some r → final_world r = Some w' → I w'.
Proof.
  intros Hrun Hc. unfold exec. specialize (Hrun w Hc).
  destruct (uv_run w) as [st w1]. cbn [snd] in Hrun.
  pose proof (exec_loop_keeps (length (exitEvents_ w1)) 0 w1) as Hl.
  destruct (exec_loop _ _ _) as [[[] w2|how w2|w2|]|]; try done;
    intros [= <-]; cbn [final_world]; intros [= <-];
    by apply (Hl _ _ Hrun eq_refl).
Qed.
Lemma EventLoop_step_keeps w w' : EventLoop_step w w' → I w → I w'.
Proof.
  destruct 1; intros Hc.
  - by apply call_keeps.
  - by apply addIOEvent_keeps.
  - by apply addTimeEvent_keeps.
  - by apply addExitEvent_keeps.
  - by apply addTimeEvent_keeps.
  - by eapply IOEventCallback_keeps.
  - by eapply TimeEventCallback_keeps.
  - by eapply exec_loop_keeps.
Qed.

Lemma EventLoop_steps_keep w w' : rtc EventLoop_step w w' → I w → I w'.
Proof.
  induction 1 as [|w w1 w2 Hstep _ IH]; [done|].
  intros Hc. by apply IH, (EventLoop_step_keeps w).
Qed.
End Preservation.

Section WorldOkFacts.
Context {FB : FlagBits}.

Lemma handles_consistent_alloc w o :
  handles_consistent w →
  (∀ b, object_base o = Some b → handle_ b = None ∧ state_ b = Disabled) →
  handles_consistent (allocated o w).
Proof.
  intros [H1 H2 H3] Ho.
  assert (heap w !! next_ptr w = None) as Hfree.
  { destruct (heap w !! next_ptr w) eqn:E; [|done].
    specialize (H1 (next_ptr w) (mk_is_Some _ _ E)). lia. }
  assert (own_handle o = None) as Hown.
  { unfold own_handle. destruct (object_base o) as [b|]; [|done].
    destruct (Ho b eq_refl) as [Hb _]. by cbn. }
  split; unfold handles_of; cbn [allocated sys heap next_ptr].
  - intros p Hp. destruct (decide (p = next_ptr w)) as [->|Hne]; [lia|].
    rewrite lookup_insert_ne in Hp by done. specialize (H1 p Hp). lia.
  - intros p o' h Hp Hh. destruct (decide (p = next_ptr w)) as [->|Hne].
    + rewrite lookup_insert_eq in Hp. injection Hp as <-. congruence.
    + rewrite lookup_insert_ne in Hp by done. by apply (H2 p o' h).
  - intros h hd Hh. specialize (H3 h hd Hh).
    destruct (data hd) as [p|]; [|done].
    destruct H3 as (o' & Hp & Hh'). exists o'. split; [|done].
    rewrite lookup_insert_ne; [done|]. intros <-. congruence.
Qed.

Lemma enabled_iff_alloc w o :
  handles_consistent w → enabled_iff_handle w →
  (∀ b, object_base o = Some b → handle_ b = None ∧ state_ b = Disabled) →
  enabled_iff_handle (allocated o w).
Proof.
  intros _ He Ho Hs p o' b Hp Hb. cbn [allocated sys heap] in *.
  destruct (decide (p = next_ptr w)) as [->|Hne].
  - rewrite lookup_insert_eq in Hp. injection Hp as <-.
    destruct (Ho b Hb) as [-> ->]. split; [by intros [? ?]|done].
  - rewrite lookup_insert_ne in Hp by done. by apply (He Hs p o').
Qed.

Lemma world_ok_ext w w' :
  sys w' = sys w → heap w' = heap w → next_ptr w' = next_ptr w →
  world_ok w → world_ok w'.
Proof.
  intros Hs Hh Hn [H1 H2]. split.
  - by apply (handles_consistent_ext w).
  - by apply (enabled_iff_ext w).
Qed.

Lemma world_ok_step w p o r :
  world_ok w → heap w !! p = Some o → object_transition p o (sys w) r →
  world_ok
    (set_heap (match r.1 with
               | Some o2 => <[p := o2]> (heap w)
               | None => delete p (heap w)
               end) (set_sys r.2 w)).
Proof.
  intros [H1 H2] Hp [Htr _]. split.
  - by apply (step_consistent w p o).
  - by apply (step_enabled_iff w p o).
Qed.

Lemma world_ok_alloc w o :
  world_ok w →
  (∀ b, object_base o = Some b → handle_ b = None ∧ state_ b = Disabled) →
  world_ok (allocated o w).
Proof.
  intros [H1 H2] Ho. split.
  - by apply handles_consistent_alloc.
  - by apply enabled_iff_alloc.
Qed.

Lemma handles_consistent_step w p o r :
  handles_consistent w → heap w !! p = Some o →
  object_transition p o (sys w) r →
  handles_consistent
    (set_heap (match r.1 with
               | Some o2 => <[p := o2]> (heap w)
               | None => delete p (heap w)
               end) (set_sys r.2 w)).
Proof. intros Hc Hp [Htr _]. by apply (step_consistent w p o). Qed.

Lemma addIOEvent_consistent fd flags cb w :
  handles_consistent w → handles_consistent (addIOEvent fd flags cb w).2.
Proof.
  apply (addIOEvent_keeps handles_consistent handles_consistent_ext
           handles_consistent_step handles_consistent_alloc).
Qed.

Lemma addTimeEvent_consistent clock usec accuracy cb w :
  handles_consistent w →
  handles_consistent (addTimeEvent clock usec accuracy cb w).2.
Proof.
  apply (addTimeEvent_keeps handles_consistent handles_consistent_ext
           handles_consistent_step handles_consistent_alloc).
Qed.

Lemma world_ok_new answers : world_ok (new_EventLoop answers).
Proof.
  split.
  - split; unfold handles_of, new_EventLoop;
      cbn [heap sys uvloop handles next_ptr]; intros *;
      rewrite lookup_empty; try done; by intros [? ?].
  - intros _ p o b Hp. unfold new_EventLoop in Hp. cbn [heap] in Hp.
    by rewrite lookup_empty in Hp.
Qed.
End WorldOkFacts.

(** ** What holds in every reachable world *)

Section Reachable.
Context {FB : FlagBits}.

(** X9. In every world reached from a new event loop by methods of
    sources, their destruction, the factories, dispatches to the two
    callbacks and exit walks, however each ended, the sources and the
    handles of the loop refer to each other one to one, and a source with
    a base has a handle exactly when it is not Disabled. *)
Theorem world_ok_reachable answers w :
  rtc EventLoop_step (new_EventLoop answers) w → world_ok w.
Proof.
  intros Hr.
  apply (EventLoop_steps_keep world_ok world_ok_ext world_ok_step
           world_ok_alloc _ _ Hr).
  apply world_ok_new.
Qed.

(** [exec] as a whole keeps it, if the dispatches [uv_run] makes do. *)
Lemma world_ok_exec uv_run w r w' :
  (∀ w0, world_ok w0 → world_ok (uv_run w0).2) →
  world_ok w → exec uv_run w = Some r → final_world r = Some w' →
  world_ok w'.
Proof.
  apply (exec_keeps world_ok world_ok_ext world_ok_step).
Qed.

(** Without a loop a consistent world has no handles. *)
Lemma dead_no_handles w p o :
  handles_consistent w → uvloop (sys w) = None →
  heap w !! p = Some o → own_handle o = None.
Proof.
  intros Hc Hd Hp. destruct (own_handle o) as [h|] eqn:Ho; [|done].
  destruct (hc_owner w Hc p o h Hp Ho) as (hd & Hh & _).
  unfold handles_of in Hh. rewrite Hd in Hh. by rewrite lookup_empty in Hh.
Qed.

Lemma dead_ext s0 w w' :
  sys w' = sys w → heap w' = heap w → next_ptr w' = next_ptr w →
  handles_consistent w ∧ sys w = s0 →
  handles_consistent w' ∧ sys w' = s0.
Proof.
  intros Hs Hh Hn [H1 H2]. split; [by apply (handles_consistent_ext w)|].
  by rewrite Hs.
Qed.

Lemma dead_step s0 w p o r :
  uvloop s0 = None →
  handles_consistent w ∧ sys w = s0 →
  heap w !! p = Some o → object_transition p o (sys w) r →
  let w' := set_heap (match r.1 with
                      | Some o2 => <[p := o2]> (heap w)
                      | None => delete p (heap w)
                      end) (set_sys r.2 w) in
  handles_consistent w' ∧ sys w' = s0.
Proof.
  intros Hd [H1 H2] Hp [Htr Hdead].
  split; [by apply (step_consistent w p o)|].
  cbn [sys set_heap set_sys]. rewrite <- H2. apply Hdead.
  - by rewrite H2.
  - apply (dead_no_handles w p o); [done| |done]. by rewrite H2.
Qed.

Lemma dead_alloc s0 w o :
  handles_consistent w ∧ sys w = s0 →
  (∀ b, object_base o = Some b → handle_ b = None ∧ state_ b = Disabled) →
  handles_consistent (allocated o w) ∧ sys (allocated o w) = s0.
Proof.
  intros [H1 H2] Ho. split; [by apply handles_consistent_alloc|done].
Qed.

Lemma dead_world_consistent answers :
  handles_consistent (dead_world answers).
Proof.
  split; unfold handles_of, dead_world, new_EventLoop;
    cbn [heap sys uvloop handles next_ptr set_sys set_uvloop]; intros *;
    rewrite lookup_empty; try done; by intros [? ?].
Qed.

(** X10. Once the loop is gone (the weak pointer no longer locks),
    nothing the event loop or a source does touches the system again: no
    call into libuv, no reading of the clock, and no source has or gets a
    handle.  Sources made or enabled afterwards are never registered, and
    a destructor that runs after the loop's closes nothing twice. *)
Theorem dead_loop_registers_nothing w w' :
  handles_consistent w → uvloop (sys w) = None →
  rtc EventLoop_step w w' →
  sys w' = sys w ∧
  ∀ p o, heap w' !! p = Some o → own_handle o = None.
Proof.
  intros Hc Hd Hr.
  destruct (EventLoop_steps_keep
              (λ w0, handles_consistent w0 ∧ sys w0 = sys w)
              (dead_ext (sys w)) (λ w0 p o r, dead_step (sys w) w0 p o r Hd)
              (dead_alloc (sys w)) _ _ Hr (conj Hc eq_refl))
    as [Hc' Hs'].
  split; [done|]. intros p o. apply dead_no_handles; [done|].
  by rewrite Hs'.
Qed.

(** X11. In a consistent world a dispatch on an open handle finds
    the source it belongs to: on a poll handle [IOEventCallback], and on a
    timer handle [TimeEventCallback], is never undefined. *)
Theorem dispatch_on_open_handle_defined w handle hd :
  handles_consistent w →
  handles_of w !! handle = Some hd → closing hd = false →
  match registration hd with
  | uv_poll _ _ =>
      ∀ status events, IOEventCallback handle status events w ≠ Undefined
  | uv_timer _ _ => TimeEventCallback handle w ≠ Undefined
  end.
Proof.
  intros Hc Hh Hcl.
  pose proof (hc_back w Hc handle hd Hh) as Hb.
  destruct (data hd) as [p|] eqn:Hd; [|congruence].
  destruct Hb as (o & Hp & Ho).
  destruct (hc_owner w Hc p o handle Hp Ho) as (hd' & Hh' & _ & _ & Hk).
  assert (hd' = hd) as -> by congruence.
  assert (handle_data handle w = Some p) as Hhd.
  { unfold handle_data. unfold handles_of in Hh.
    destruct (uvloop (sys w)) as [l|]; [|by rewrite lookup_empty in Hh].
    cbn. rewrite Hh. by cbn. }
  destruct (registration hd) as [fd0 ev0|to rp], o as [t|t|t]; try done.
  - intros status events. unfold IOEventCallback. rewrite Hhd, Hp.
    by destruct (invoke _ _ _) as [? []].
  - unfold TimeEventCallback. rewrite Hhd, Hp.
    destruct (invoke _ _ _) as [w2 []]; try done.
    destruct (get_time p w2) as [o2|]; [|done].
    destruct (isEnabled o2); [|done]. by destruct (resetEvent _ _ _).
Qed.

(** X12. A method call on one source, or its destruction, leaves
    every other source as it is, and its handle in the loop as well. *)
Theorem call_leaves_other_sources w p m q oq :
  handles_consistent w → heap w !! q = Some oq → q ≠ p →
  heap (call (p, m) w) !! q = Some oq ∧
  ∀ h, own_handle oq = Some h →
    handles_of (call (p, m) w) !! h = handles_of w !! h.
Proof.
  intros Hc Hq Hne.
  destruct (heap w !! p) as [o|] eqn:Hp;
    [|unfold call; by rewrite Hp].
  rewrite (call_unfold p m w o Hp). rewrite handles_of_set.
  pose proof (method_transition p m o (sys w)) as [_ Htr].
  destruct (method p m o (sys w)) as [r1 s2]. cbn [fst snd heap set_heap] in *.
  split.
  { destruct r1; [by rewrite lookup_insert_ne|by rewrite lookup_delete_ne]. }
  intros h Hh. rewrite (handles_of_sys w).
  assert (detach_opt (own_handle o) (sys_handles (sys w)) !! h =
          sys_handles (sys w) !! h) as Hdet.
  { destruct (own_handle o) as [ho|] eqn:Ho; [|done]. cbn [detach_opt].
    rewrite lookup_alter_ne; [done|]. intros ->.
    by destruct Hne, (hc_owner_unique w p q o oq h Hc). }
  destruct (hc_owner w Hc q oq h Hq Hh) as (hdq & Hhq & _).
  rewrite (handles_of_sys w) in Hhq.
  destruct r1 as [o2|]; [|by rewrite Htr].
  destruct Htr as (_ & _ & Htr).
  destruct (own_handle o2) as [h'|]; [|by rewrite Htr].
  destruct Htr as [[_ ->]|(Hfree & reg & _ & ->)]; [done|].
  rewrite lookup_insert_ne; [done|]. intros ->. congruence.
Qed.
End Reachable.

Section ReachableWitness.
#[local] Existing Instance header_bits.

Lemma world_ok_reachable_witness :
  rtc EventLoop_step (new_EventLoop (λ _ _, 0)) io_world ∧ world_ok io_world.
Proof.
  assert (rtc EventLoop_step (new_EventLoop (λ _ _, 0)) io_world) as H.
  { apply rtc_once. apply step_addIOEvent. }
  split; [exact H|]. exact (world_ok_reachable _ _ H).
Defined.

Lemma dead_loop_registers_nothing_witness :
  let w := dead_world (λ _ _, 0) in
  let w' := (addIOEvent 3 IOEventFlag.In (λ _ _ _ _, ([], Returns true)) w).2 in
  rtc EventLoop_step w w' ∧
  sys w' = sys w ∧
  ∀ p o, heap w' !! p = Some o → own_handle o = None.
Proof.
  intros w w'.
  assert (rtc EventLoop_step w w') as H.
  { apply rtc_once. apply step_addIOEvent. }
  split; [exact H|].
  exact (dead_loop_registers_nothing w w' (dead_world_consistent _)
           eq_refl H).
Defined.

Lemma dispatch_on_open_handle_defined_witness :
  handles_consistent io_world ∧
  ∀ status events, IOEventCallback 0%nat status events io_world ≠ Undefined.
Proof.
  assert (handles_consistent io_world) as Hc.
  { apply addIOEvent_consistent, world_ok_new. }
  split; [exact Hc|].
  exact (dispatch_on_open_handle_defined io_world 0%nat
           {| data := Some 0%nat; closing := false;
              registration := uv_poll 3 UV_READABLE |}
           Hc eq_refl eq_refl).
Defined.

Lemma call_leaves_other_sources_witness :
  let w := (addTimeEvent CLOCK_MONOTONIC 5000 0
              (λ _ _ _, ([], Returns true)) io_world).2 in
  ∃ oq, heap w !! 1%nat = Some oq ∧
    heap (call (0%nat, destroy) w) !! 1%nat = Some oq ∧
    ∀ h, own_handle oq = Some h →
      handles_of (call (0%nat, destroy) w) !! h = handles_of w !! h.
Proof.
  intros w. eexists. split; [reflexivity|].
  apply call_leaves_other_sources; [|reflexivity|lia].
  apply addTimeEvent_consistent, addIOEvent_consistent, world_ok_new.
Defined.
End ReachableWitness.

(** ** The destructor of the loop *)

Section DestroyFacts.
Context {FB : FlagBits}.

Lemma only_closes_refl w : only_closes w w.
Proof. by repeat split. Qed.

Lemma only_closes_trans w1 w2 w3 :
  only_closes w1 w2 → only_closes w2 w3 → only_closes w1 w3.
Proof.
  intros (Hv & He & Hl & Hd & Hc) (Hv' & He' & Hl' & Hd' & Hc').
  repeat split; try congruence; auto.
Qed.

(** A source that holds [h] is cleaned up in place. *)
Lemma cleanup_in_place w p o o2 s2 h :
  handles_consistent w → heap w !! p = Some o → own_handle o = Some h →
  own_handle o2 = None → observe o2 = observe o →
  (∀ reg, kind_matches reg o2 = kind_matches reg o) →
  sys_handles s2 = detach_opt (Some h) (handles_of w) →
  let w' := set_heap (<[p := o2]> (heap w)) (set_sys s2 w) in
  handles_consistent w' ∧ only_closes w w' ∧ closed_in w' h.
Proof.
  intros Hc Hp Ho Ho2 Hobs Hk Hs w'.
  assert (handles_of w' = detach_opt (Some h) (handles_of w)) as Hh'.
  { unfold w'. by rewrite handles_of_set. }
  split; [|split].
  - apply (handles_consistent_update w p o o2 s2); [done..|].
    rewrite Ho2. by rewrite Ho.
  - unfold only_closes. rewrite Hh'. repeat split.
    + unfold view, w'. cbn [heap set_heap set_sys log]. f_equal.
      rewrite fmap_insert. apply insert_id.
      rewrite lookup_fmap, Hp. cbn. by rewrite Hobs.
    + intros h0. cbn [detach_opt].
      destruct (decide (h0 = h)) as [->|Hne].
      * rewrite lookup_alter_eq. by destruct (handles_of w !! h).
      * by rewrite lookup_alter_ne.
    + intros h0 Hcl hd. rewrite Hh'. cbn [detach_opt].
      destruct (decide (h0 = h)) as [->|Hne].
      * rewrite lookup_alter_eq.
        destruct (handles_of w !! h); cbn; [|done]. by intros [= <-].
      * rewrite lookup_alter_ne by done. apply Hcl.
  - intros hd. rewrite Hh'. cbn [detach_opt]. rewrite lookup_alter_eq.
    destruct (handles_of w !! h); cbn; [|done]. by intros [= <-].
Qed.

Lemma walk_cb_facts h w :
  handles_consistent w →
  handles_consistent (UVLoop_walk_cb h w) ∧
  only_closes w (UVLoop_walk_cb h w) ∧
  closed_in (UVLoop_walk_cb h w) h.
Proof.
  intros Hc. unfold UVLoop_walk_cb.
  destruct (handles_of w !! h) as [hd|] eqn:Hh;
    [|split; [done|split; [apply only_closes_refl|]];
      intros hd; by rewrite Hh].
  destruct (closing hd) eqn:Hcl; cbn [negb];
    [split; [done|split; [apply only_closes_refl|]];
      intros hd'; rewrite Hh; by intros [= <-]|].
  pose proof (hc_back w Hc h hd Hh) as Hb.
  destruct (data hd) as [p|]; [|congruence].
  destruct Hb as (o & Hp & Ho). rewrite Hp.
  destruct o as [t|t|t]; [| |done].
  - assert (handle_ (base t) = Some h) as Ht by exact Ho.
    rewrite (surjective_pairing (cleanup t (sys w))). cbv beta iota.
    apply (cleanup_in_place w p (IOSource t) _ _ h Hc Hp Ho).
    + change (handle_ (base (cleanup t (sys w)).1) = None).
      by rewrite base_cleanup.
    + rewrite cleanup_spec. by destruct t.
    + done.
    + by rewrite sys_handles_cleanup, Ht.
  - assert (handle_ (base t) = Some h) as Ht by exact Ho.
    rewrite (surjective_pairing (cleanup t (sys w))). cbv beta iota.
    apply (cleanup_in_place w p (TimeSource t) _ _ h Hc Hp Ho).
    + change (handle_ (base (cleanup t (sys w)).1) = None).
      by rewrite base_cleanup.
    + rewrite cleanup_spec. by destruct t.
    + done.
    + by rewrite sys_handles_cleanup, Ht.
Qed.

Lemma walk_facts order w :
  handles_consistent w →
  handles_consistent (UVLoop_walk order w) ∧
  only_closes w (UVLoop_walk order w) ∧
  ∀ h, h ∈ order → closed_in (UVLoop_walk order w) h.
Proof.
  unfold UVLoop_walk. revert w.
  induction order as [|h order IH]; intros w Hc; cbn [foldl].
  - split; [done|]. split; [apply only_closes_refl|].
    intros h Hin. by apply elem_of_nil in Hin.
  - destruct (walk_cb_facts h w Hc) as (Hc1 & Ho1 & Hcl1).
    destruct (IH _ Hc1) as (Hc2 & Ho2 & Hcl2).
    split; [done|]. split; [by eapply only_closes_trans|].
    intros h0 Hin. apply elem_of_cons in Hin as [->|Hin]; [|by apply Hcl2].
    destruct Ho2 as (_ & _ & _ & _ & Hmono). by apply Hmono.
Qed.

(** X13. The destructor of the loop, in a consistent world whose
    handles the walk all visits, returns; it leaves the loop gone and
    every source without a handle, while what the getters of the sources
    return, the exit entries and the log are as before: enabled sources
    stay enabled but are no longer registered. *)
Theorem UVLoop_destroy_detaches_all order w :
  handles_consistent w →
  (∀ h, is_Some (handles_of w !! h) → h ∈ order) →
  ∃ w', UVLoop_destroy order w = Some w' ∧
    uvloop (sys w') = None ∧
    (∀ p o, heap w' !! p = Some o → own_handle o = None) ∧
    view w' = view w ∧ exitEvents_ w' = exitEvents_ w ∧ log w' = log w ∧
    handles_consistent w'.
Proof.
  intros Hc Hall. unfold UVLoop_destroy.
  destruct (walk_facts order w Hc) as (Hc1 & (Hv & He & Hl & Hd & _) & Hcl).
  set (w1 := UVLoop_walk order w) in *.
  assert (map_Forall (λ _ hd, closing hd = true) (handles_of w1)) as Hf.
  { intros h hd Hh. apply (Hcl h); [|done]. apply Hall, Hd. by eexists. }
  rewrite bool_decide_eq_true_2 by done.
  assert (∀ p o, heap w1 !! p = Some o → own_handle o = None) as Hown.
  { intros p o Hp. destruct (own_handle o) as [h|] eqn:Ho; [|done].
    destruct (hc_owner w1 Hc1 p o h Hp Ho) as (hd & Hh & _ & Hopen & _).
    specialize (Hf h hd Hh). cbn in Hf. congruence. }
  eexists. split; [done|]. repeat split; try done.
  - intros p Hp. by apply (hc_fresh w1 Hc1).
  - intros p o h Hp Ho. cbn [heap set_sys] in Hp.
    rewrite (Hown p o Hp) in Ho. done.
Qed.
End DestroyFacts.

Section DestroyWitness.
#[local] Existing Instance header_bits.

Lemma UVLoop_destroy_detaches_all_witness :
  ∃ w', UVLoop_destroy (elements (dom (handles_of io_world))) io_world
        = Some w' ∧
    uvloop (sys w') = None ∧
    (∀ p o, heap w' !! p = Some o → own_handle o = None) ∧
    view w' = view io_world ∧ exitEvents_ w' = exitEvents_ io_world ∧
    log w' = log io_world ∧ handles_consistent w'.
Proof.
  apply UVLoop_destroy_detaches_all.
  - apply addIOEvent_consistent, world_ok_new.
  - intros h Hh. by apply elem_of_elements, elem_of_dom.
Defined.
End DestroyWitness.
